(** * ds2: the Windows inferior-control core (Target::Windows::Process)

    A shallow embedding of [Sources/Target/Windows/Process.cpp] and of
    [Headers/DebugServer2/Target/Windows/Process.h].

    - The C++ object state is a record, passed and returned explicitly.
    - The Thread objects of a process live in its thread set, a finite map
      from thread id to Thread; a [Thread *] such as [_currentThread] is the
      key of the object it points to ([None] for [nullptr]), so that a write
      through the pointer is seen through the thread set.
    - The host operating system is an opaque [World] that every native
      call may read and change.
    - A failed [DS2ASSERT] or a [DS2BUG] ends the call with the outcome
      [AssertionFailure].
    - The [for (;;)] loop of [wait] is run with a budget of passes. *)

From Stdlib Require Import ZArith List Bool Ascii String Lia.
From stdpp Require Import base option list gmap.

Local Open Scope Z_scope.

(** ** Scalar types of the source *)

Abbreviation DWORD := Z (only parsing).
Abbreviation HANDLE := Z (only parsing).
Abbreviation HMODULE := Z (only parsing).
Abbreviation WCHAR := Z (only parsing).
Abbreviation ThreadId := Z (only parsing).
Abbreviation ProcessId := Z (only parsing).
Abbreviation size_t := Z (only parsing).
(** [char]: one 8-bit character; [std::string] is a list of them. *)
Abbreviation char := ascii (only parsing).
Abbreviation std_string := (list ascii) (only parsing).

(** [nullptr] / [NULL] for handles and pointers stored as integers. *)
Definition NULL : Z := 0.

(** Address arithmetic [address + i] on a 64-bit address value. *)
Definition Address_add (address : Z) (i : Z) : Z := (address + i) mod 2 ^ 64.

(** Modelled from the spec: the portable error enumeration (its header,
    Types/ErrorCodes, is absent); section 4.5 lists the members. *)
Inductive ErrorCode : Set :=
| kSuccess
| kErrorUnsupported
| kErrorAlreadyExist
| kErrorNotFound
| kErrorInvalidArgument
| kErrorAccessDenied
| kErrorUnknown.

#[global] Instance ErrorCode_eq_dec : EqDecision ErrorCode.
Proof. solve_decision. Defined.

(** Modelled from the spec: [StopInfo] (its header is absent), section 3:
    event kind, reason and a status payload. *)
Inductive StopEvent : Set := kEventNone | kEventStop | kEventExit | kEventKill.
Inductive StopReason : Set :=
| kReasonNone | kReasonBreakpoint | kReasonSingleStep | kReasonSignal | kReasonException.

Record StopInfo : Set := mkStopInfo {
  event : StopEvent;
  reason : StopReason;
  status : Z
}.

(** Modelled from the spec: the run state of a Thread, section 3. *)
Inductive ThreadState : Set := kRunning | kSuspended | kStopped | kTerminated.

#[global] Instance StopEvent_eq_dec : EqDecision StopEvent.
Proof. solve_decision. Defined.
#[global] Instance ThreadState_eq_dec : EqDecision ThreadState.
Proof. solve_decision. Defined.

(** A [Thread] object: identity, native handle, run state, last stop. *)
Record Thread : Set := mkThread {
  tid : ThreadId;
  t_handle : HANDLE;
  _state : ThreadState;
  _stopInfo : StopInfo
}.

Definition Thread_set_state (st : ThreadState) (t : Thread) : Thread :=
  {| tid := tid t; t_handle := t_handle t; _state := st; _stopInfo := _stopInfo t |}.

Definition Thread_set_event (e : StopEvent) (t : Thread) : Thread :=
  {| tid := tid t; t_handle := t_handle t; _state := _state t;
     _stopInfo := {| event := e; reason := reason (_stopInfo t);
                     status := status (_stopInfo t) |} |}.

Definition Thread_set_status (x : Z) (t : Thread) : Thread :=
  {| tid := tid t; t_handle := t_handle t; _state := _state t;
     _stopInfo := {| event := event (_stopInfo t); reason := reason (_stopInfo t);
                     status := x |} |}.

(** ** Native debug events *)

Definition EXCEPTION_DEBUG_EVENT : DWORD := 1.
Definition CREATE_THREAD_DEBUG_EVENT : DWORD := 2.
Definition CREATE_PROCESS_DEBUG_EVENT : DWORD := 3.
Definition EXIT_THREAD_DEBUG_EVENT : DWORD := 4.
Definition EXIT_PROCESS_DEBUG_EVENT : DWORD := 5.
Definition LOAD_DLL_DEBUG_EVENT : DWORD := 6.
Definition UNLOAD_DLL_DEBUG_EVENT : DWORD := 7.
Definition OUTPUT_DEBUG_STRING_EVENT : DWORD := 8.
Definition RIP_EVENT : DWORD := 9.

Definition ERROR_ACCESS_DENIED : DWORD := 5.
Definition ERROR_PARTIAL_COPY : DWORD := 299.
Definition MEM_RELEASE : DWORD := 32768.

(** [DEBUG_EVENT]: the event code, the reporting thread, and the members
    of the union [u] that [wait] reads. *)
Record DEBUG_EVENT : Set := mkDebugEvent {
  dwDebugEventCode : DWORD;
  dwThreadId : DWORD;
  CreateProcessInfo_hFile : HANDLE;
  CreateProcessInfo_hProcess : HANDLE;
  CreateProcessInfo_hThread : HANDLE;
  CreateThread_hThread : HANDLE
}.

(** ** Process::PendingEvent (Process.h) *)

Record PendingEvent : Set := mkPendingEvent {
  _valid : bool;
  pe_tid : ThreadId
}.

(** The private constructor: [_valid(false), _tid(0)]. *)
Definition PendingEvent_init : PendingEvent := {| _valid := false; pe_tid := 0 |}.

(** [reset]: [DS2ASSERT(_valid)], then clear.  [None] is the failed
    assertion. *)
Definition PendingEvent_reset (pe : PendingEvent) : option PendingEvent :=
  if _valid pe then Some {| _valid := false; pe_tid := 0 |} else None.

(** ** Cached process attributes *)

Inductive Endian : Set := kEndianUnknown | kEndianBig | kEndianLittle | kEndianPDP.

Record ProcessInfo : Set := mkProcessInfo {
  info_pid : ProcessId;
  realUid : Z;
  realGid : Z;
  cpuType : Z;
  cpuSubType : Z;
  nativeCPUType : Z;
  nativeCPUSubType : Z;
  endian : Endian;
  pointerSize : Z;
  archFlags : Z;
  osType : std_string;
  osVendor : std_string
}.

(** ** The Process object *)

Record Process : Type := mkProcess {
  _pid : ProcessId;
  _flags : Z;
  _handle : HANDLE;
  _pendingEvent : PendingEvent;
  _threads : gmap Z Thread;
  _currentThread : option ThreadId;
  _terminated : bool;
  _info : ProcessInfo
}.

Definition set_handle (h : HANDLE) (p : Process) : Process :=
  {| _pid := _pid p; _flags := _flags p; _handle := h;
     _pendingEvent := _pendingEvent p; _threads := _threads p;
     _currentThread := _currentThread p; _terminated := _terminated p;
     _info := _info p |}.

Definition set_pendingEvent (pe : PendingEvent) (p : Process) : Process :=
  {| _pid := _pid p; _flags := _flags p; _handle := _handle p;
     _pendingEvent := pe; _threads := _threads p;
     _currentThread := _currentThread p; _terminated := _terminated p;
     _info := _info p |}.

Definition set_threads (ts : gmap Z Thread) (p : Process) : Process :=
  {| _pid := _pid p; _flags := _flags p; _handle := _handle p;
     _pendingEvent := _pendingEvent p; _threads := ts;
     _currentThread := _currentThread p; _terminated := _terminated p;
     _info := _info p |}.

Definition set_currentThread (c : option ThreadId) (p : Process) : Process :=
  {| _pid := _pid p; _flags := _flags p; _handle := _handle p;
     _pendingEvent := _pendingEvent p; _threads := _threads p;
     _currentThread := c; _terminated := _terminated p;
     _info := _info p |}.

Definition set_terminated (b : bool) (p : Process) : Process :=
  {| _pid := _pid p; _flags := _flags p; _handle := _handle p;
     _pendingEvent := _pendingEvent p; _threads := _threads p;
     _currentThread := _currentThread p; _terminated := b;
     _info := _info p |}.

Definition set_info (i : ProcessInfo) (p : Process) : Process :=
  {| _pid := _pid p; _flags := _flags p; _handle := _handle p;
     _pendingEvent := _pendingEvent p; _threads := _threads p;
     _currentThread := _currentThread p; _terminated := _terminated p;
     _info := i |}.

(** A write through a [Thread *]: the object registered under key [k] is
    updated in place. *)
Definition update_thread (k : ThreadId) (f : Thread → Thread) (p : Process) : Process :=
  set_threads (alter f k (_threads p)) p.

(** [findThread]: the lookup whose miss is [DS2ASSERT(threadIt != threads.end())]. *)
Definition findThread (threads : gmap Z Thread) (k : ThreadId) : option Thread :=
  threads !! k.

(** Modelled from the spec: [ProcessBase::removeThread] (ProcessBase.cpp is
    absent): the Thread is dropped from the thread set. *)
Definition removeThread (k : ThreadId) (p : Process) : Process :=
  set_threads (delete k (_threads p)) p.

(** Modelled from the spec: the [Thread] constructor (Thread.cpp and
    ThreadBase.cpp are absent): the new Thread takes its id and handle from
    the arguments; [st0] and [si0] are the run state and stop descriptor a
    fresh Thread starts with. *)
Definition Thread_ctor (st0 : ThreadState) (si0 : StopInfo)
    (k : ThreadId) (h : HANDLE) : Thread :=
  {| tid := k; t_handle := h; _state := st0; _stopInfo := si0 |}.

(** Modelled from the spec: the constructor registers the new Thread in the
    thread set of its process ([ProcessBase::insert], absent). *)
Definition ProcessBase_insert (t : Thread) (p : Process) : Process :=
  set_threads (<[tid t := t]> (_threads p)) p.

(** ** The host: native calls and the absent parts of the repository

    [World] is the state of the operating system and of the debuggee.  The
    fields from [GetLastError] to [GetModuleFileNameExW] are Win32 calls;
    the [Platform_] fields are the static functions of [Host::Platform]; the
    [Thread_] fields are the methods of [Thread] that Process.cpp calls and
    [ProcessBase_suspend] is the inherited [suspend()]: their definitions
    (Platform.cpp, Thread.cpp, ProcessBase.cpp) are absent, so they are
    parameters. *)
Class Host : Type := {
  World : Type;
  GetLastError : World → DWORD;
  (** [WaitForDebugEvent(&de, INFINITE)]: [None] when the call never
      returns; otherwise the [BOOL] result as an optional event. *)
  WaitForDebugEvent : World → option (option DEBUG_EVENT * World);
  CloseHandle : World → HANDLE → World;
  GetThreadId : World → HANDLE → DWORD;
  GetExitCodeProcess : World → HANDLE → option DWORD * World;
  TerminateProcess : World → HANDLE → Z → bool * World;
  (** [ReadProcessMemory(h, address, data, length, &bytesRead)]: the
      [BOOL] result, the bytes stored into [data], and [bytesRead]. *)
  ReadProcessMemory : World → HANDLE → Z → size_t → (bool * list ascii * size_t) * World;
  (** [WriteProcessMemory(h, address, data, length, &bytesWritten)]. *)
  WriteProcessMemory : World → HANDLE → Z → list ascii → size_t → (bool * size_t) * World;
  (** [VirtualFreeEx(h, address, dwSize, dwFreeType)]. *)
  VirtualFreeEx : World → HANDLE → Z → size_t → DWORD → bool * World;
  (** [EnumProcessModules(h, buffer, cb, &bytesNeeded)]: [None] for a
      [FALSE] result; otherwise the handles stored at the start of the
      buffer and [bytesNeeded]. *)
  EnumProcessModules : World → HANDLE → Z → option (list HMODULE * DWORD) * World;
  sizeof_HMODULE : Z;
  (** [GetModuleFileNameExW(h, m, nameStr, nSize)]: the characters of the
      name the call stores, the null that ends them left out; their number
      is the returned [nameSize]. *)
  GetModuleFileNameExW : World → HANDLE → HMODULE → Z → list WCHAR * World;
  MAX_PATH : Z;
  sizeof_WCHAR : Z;
  (** What an uninitialised [char] local holds. *)
  uninitialized_char : World → ascii;

  Platform_TranslateError : DWORD → ErrorCode;
  Platform_GetCPUType : Z;
  Platform_GetCPUSubType : Z;
  Platform_GetPointerSize : Z;
  Platform_GetOSTypeName : std_string;
  Platform_GetOSVendorName : std_string;
  Platform_WideToNarrowString : list WCHAR → std_string;

  Thread_initial_state : ThreadState;
  Thread_initial_stopInfo : StopInfo;
  Thread_suspend : World → Thread → ErrorCode * Thread * World;
  Thread_resume : World → Thread → ErrorCode * Thread * World;
  Thread_updateState : World → Thread → DEBUG_EVENT → Thread * World;
  ProcessBase_suspend : World → gmap Z Thread → ErrorCode * gmap Z Thread * World
}.

(** What a call on a Process comes to: it returns a value, leaving the
    object and the world changed; or a [DS2ASSERT] / [DS2BUG] fails; or the
    native wait never returns; or the loop budget of the model ran out. *)
Inductive Outcome {H : Host} (A : Type) : Type :=
| Returned (a : A) (p : Process) (w : World)
| AssertionFailure
| Blocks
| OutOfFuel.
Arguments Returned {H A} a p w.
Arguments AssertionFailure {H A}.
Arguments Blocks {H A}.
Arguments OutOfFuel {H A}.

Section Windows.
Context {H : Host}.

(** [Platform::TranslateError()] without argument translates the last
    native error. *)
Definition TranslateError (w : World) : ErrorCode :=
  Platform_TranslateError (GetLastError w).

(** [PendingEvent::set(thread)]: [DS2ASSERT(!_valid)]; record the thread
    id; [thread->suspend()], whose result is dropped.  [None] is the failed
    assertion. *)
Definition PendingEvent_set (w : World) (pe : PendingEvent) (thread : Thread)
    : option (PendingEvent * Thread * World) :=
  if _valid pe then None
  else
    let pe' := {| _valid := true; pe_tid := tid thread |} in
    let '(_, thread', w') := Thread_suspend w thread in
    Some (pe', thread', w').

(** [_pendingEvent.set(_currentThread)] on the Process: the Thread object
    registered under [k] is the one [_currentThread] points to. *)
Definition pendingEvent_set_current (w : World) (k : ThreadId) (t : Thread) (p : Process)
    : option (Process * World) :=
  match PendingEvent_set w (_pendingEvent p) t with
  | None => None
  | Some (pe', t', w') =>
      Some (set_threads (<[k := t']> (_threads p)) (set_pendingEvent pe' p), w')
  end.

(** [Process::terminate] *)
Definition terminate (w : World) (p : Process) : ErrorCode * Process * World :=
  let '(result, w) := TerminateProcess w (_handle p) 0 in
  if negb result then (TranslateError w, p, w)
  else (kSuccess, set_terminated true p, w).

(** [Process::isAlive] *)
Definition isAlive (p : Process) : bool := negb (_terminated p).

(** One pass through the body of the [for (;;)] loop of [Process::wait]:
    either the loop goes round again ([inl], the [continue] statements) or
    the call is over ([inr]). *)
Definition wait_iteration (w : World) (p : Process)
    : (Process * World) + Outcome ErrorCode :=
  let p := set_currentThread None p in
  match WaitForDebugEvent w with
  | None => inr Blocks
  | Some (None, w) => inr (Returned (TranslateError w) p w)
  | Some (Some de, w) =>
    let code := dwDebugEventCode de in
    if code =? CREATE_PROCESS_DEBUG_EVENT then
      if negb (_handle p =? NULL) then inr AssertionFailure
      else if CreateProcessInfo_hProcess de =? NULL then inr AssertionFailure
      else if CreateProcessInfo_hThread de =? NULL then inr AssertionFailure
      else
        let w := if negb (CreateProcessInfo_hFile de =? NULL)
                 then CloseHandle w (CreateProcessInfo_hFile de) else w in
        let p := set_handle (CreateProcessInfo_hProcess de) p in
        let k := GetThreadId w (CreateProcessInfo_hThread de) in
        let t := Thread_ctor Thread_initial_state Thread_initial_stopInfo
                   k (CreateProcessInfo_hThread de) in
        let p := set_currentThread (Some k) (ProcessBase_insert t p) in
        match pendingEvent_set_current w k t p with
        | None => inr AssertionFailure
        | Some (p, w) => inr (Returned kSuccess p w)
        end
    else if code =? EXIT_PROCESS_DEBUG_EVENT then
      if negb (Nat.eqb (size (_threads p)) 1) then inr AssertionFailure
      else
        match findThread (_threads p) (dwThreadId de) with
        | None => inr AssertionFailure
        | Some t =>
          let k := dwThreadId de in
          let p := set_currentThread (Some k) p in
          match pendingEvent_set_current w k t p with
          | None => inr AssertionFailure
          | Some (p, w) =>
            let p := set_terminated true p in
            let p := update_thread k (Thread_set_state kTerminated) p in
            match GetExitCodeProcess w (_handle p) with
            | (None, w) => inr (Returned (TranslateError w) p w)
            | (Some exitCode, w) =>
              let p := update_thread k (Thread_set_event kEventExit) p in
              let p := update_thread k (Thread_set_status exitCode) p in
              inr (Returned kSuccess p w)
            end
          end
        end
    else if code =? CREATE_THREAD_DEBUG_EVENT then
      let k := dwThreadId de in
      let t := Thread_ctor Thread_initial_state Thread_initial_stopInfo
                 k (CreateThread_hThread de) in
      let p := set_currentThread (Some k) (ProcessBase_insert t p) in
      let '(error, t, w) := Thread_resume w t in
      let p := set_threads (<[k := t]> (_threads p)) p in
      match error with
      | kSuccess => inl (p, w)
      | _ => inr (Returned error p w)
      end
    else if code =? EXIT_THREAD_DEBUG_EVENT then
      match findThread (_threads p) (dwThreadId de) with
      | None => inr AssertionFailure
      | Some t =>
        let k := dwThreadId de in
        let p := set_currentThread (Some k) p in
        let '(t, w) := Thread_updateState w t de in
        let '(error, t, w) := Thread_resume w t in
        let p := set_threads (<[k := t]> (_threads p)) p in
        match error with
        | kSuccess => inl (removeThread (tid t) p, w)
        | _ => inr (Returned error p w)
        end
      end
    else if (code =? EXCEPTION_DEBUG_EVENT) || (code =? LOAD_DLL_DEBUG_EVENT)
            || (code =? UNLOAD_DLL_DEBUG_EVENT) || (code =? OUTPUT_DEBUG_STRING_EVENT) then
      match findThread (_threads p) (dwThreadId de) with
      | None => inr AssertionFailure
      | Some t =>
        let k := dwThreadId de in
        let p := set_currentThread (Some k) p in
        let '(t, w) := Thread_updateState w t de in
        match pendingEvent_set_current w k t p with
        | None => inr AssertionFailure
        | Some (p, w) =>
          let '(error, ts, w) := ProcessBase_suspend w (_threads p) in
          let p := set_threads ts p in
          match error with
          | kSuccess => inr (Returned kSuccess p w)
          | _ => inr (Returned error p w)
          end
        end
      end
    else inr AssertionFailure
  end.

(** The [for (;;)] loop, with a budget of iterations. *)
Fixpoint wait_loop (fuel : nat) (w : World) (p : Process) : Outcome ErrorCode :=
  match fuel with
  | O => OutOfFuel
  | S fuel' =>
    match wait_iteration w p with
    | inl (p', w') => wait_loop fuel' w' p'
    | inr out => out
    end
  end.

(** [Process::wait] *)
Definition wait (fuel : nat) (w : World) (p : Process) : Outcome ErrorCode :=
  if _terminated p then
    match _currentThread p with
    | None => AssertionFailure
    | Some k =>
      Returned kSuccess (update_thread k (Thread_set_event kEventKill) p) w
    end
  else wait_loop fuel w p.

(** ** Memory access *)

(** An out-parameter [size_t *]: [None] is [nullptr], [Some v] a pointer
    to a cell holding [v].  [store_out ptr v] is [if (ptr != nullptr) *ptr = v]. *)
Definition store_out (ptr : option size_t) (v : size_t) : option size_t :=
  match ptr with
  | Some _ => Some v
  | None => None
  end.

(** [Process::readMemory]: the result, the bytes stored into [data], the
    cell behind [nread], the world. *)
Definition readMemory (w : World) (p : Process) (address : Z) (length : size_t)
    (nread : option size_t) : ErrorCode * list ascii * option size_t * World :=
  let '(result, data, bytesRead, w) := ReadProcessMemory w (_handle p) address length in
  let nread := store_out nread bytesRead in
  if negb result then
    let error := GetLastError w in
    if negb (error =? ERROR_PARTIAL_COPY) || (bytesRead =? 0) then
      (Platform_TranslateError error, data, nread, w)
    else (kSuccess, data, nread, w)
  else (kSuccess, data, nread, w).

(** [Process::writeMemory] *)
Definition writeMemory (w : World) (p : Process) (address : Z) (data : list ascii)
    (length : size_t) (nwritten : option size_t) : ErrorCode * option size_t * World :=
  let '(result, bytesWritten, w) := WriteProcessMemory w (_handle p) address data length in
  let nwritten := store_out nwritten bytesWritten in
  if negb result then
    let error := GetLastError w in
    if negb (error =? ERROR_PARTIAL_COPY) || (bytesWritten =? 0) then
      (Platform_TranslateError error, nwritten, w)
    else (kSuccess, nwritten, w)
  else (kSuccess, nwritten, w).

(** The terminator ['\0']. *)
Definition NUL : ascii := Ascii.zero.

(** One pass of the loop of [Process::readString] up to its tests:
    [char c; error = readMemory(a, &c, sizeof(c), nullptr)]. *)
Definition read_char (w : World) (p : Process) (a : Z) : ErrorCode * ascii * World :=
  let c0 := uninitialized_char w in
  let '(error, data, _, w) := readMemory w p a 1 None in
  (error, hd c0 data, w).

(** The loop of [Process::readString]: [n] iterations are left and [i] is
    the loop counter. *)
Fixpoint readString_loop (n : nat) (i : Z) (w : World) (p : Process) (address : Z)
    (str : std_string) : ErrorCode * std_string * World :=
  match n with
  | O => (kSuccess, str, w)
  | S n' =>
    let '(error, c, w) := read_char w p (Address_add address i) in
    match error with
    | kSuccess =>
      if Ascii.eqb c NUL then (kSuccess, str, w)
      else readString_loop n' (i + 1) w p address (str ++ [c])
    | _ => (error, str, w)
    end
  end.

(** [Process::readString]: the result, the string [str], the cell behind
    [nread], the world. *)
Definition readString (w : World) (p : Process) (address : Z) (str : std_string)
    (length : size_t) (nread : option size_t)
    : ErrorCode * std_string * option size_t * World :=
  let '(error, str, w) := readString_loop (Z.to_nat length) 0 w p address str in
  (error, str, nread, w).

(** ** Cached info *)

(** [Process::updateInfo] *)
Definition updateInfo (p : Process) : ErrorCode * Process :=
  if info_pid (_info p) =? _pid p then (kErrorAlreadyExist, p)
  else
    let cpu := Platform_GetCPUType in
    let sub := Platform_GetCPUSubType in
    (kSuccess,
     set_info {| info_pid := _pid p;
                 realUid := 0;
                 realGid := 0;
                 cpuType := cpu;
                 cpuSubType := sub;
                 nativeCPUType := cpu;
                 nativeCPUSubType := sub;
                 endian := kEndianLittle;
                 pointerSize := Platform_GetPointerSize;
                 archFlags := 0;
                 osType := Platform_GetOSTypeName;
                 osVendor := Platform_GetOSVendorName |} p).

(** ** Memory release *)

(** [Process::deallocateMemory] *)
Definition deallocateMemory (w : World) (p : Process) (address : Z) (size : size_t)
    : ErrorCode * World :=
  let '(result, w) := VirtualFreeEx w (_handle p) address 0 MEM_RELEASE in
  if negb result then (TranslateError w, w)
  else (kSuccess, w).

(** ** Module enumeration *)

Record SharedLibraryInfo : Set := mkSharedLibraryInfo {
  path : std_string;
  main : bool;
  sections : list Z
}.

Definition is_upper (c : ascii) : bool :=
  (nat_of_ascii "A" <=? nat_of_ascii c)%nat && (nat_of_ascii c <=? nat_of_ascii "Z")%nat.

(** [sl.path.erase(0, 2)] under its guard. *)
Definition drop_drive (path : std_string) : std_string :=
  match path with
  | c0 :: c1 :: rest =>
      if is_upper c0 && Ascii.eqb c1 ":" then rest else path
  | _ => path
  end.

(** The host separator, the backslash, and the slash that replaces it. *)
Definition backslash : ascii := Eval cbv in ascii_of_nat 92.
Definition slash : ascii := Eval cbv in ascii_of_nat 47.

(** The loop over [sl.path] that rewrites every backslash into a slash. *)
Definition slashes (path : std_string) : std_string :=
  map (fun c => if Ascii.eqb c backslash then slash else c) path.

Definition unix_path (path : std_string) : std_string :=
  slashes (drop_drive path).

(** [modules.resize(n)] on the empty vector: [n] null handles. *)
Definition resize_modules (n : Z) : list HMODULE := repeat NULL (Z.to_nat n).

(** The handles a native call stored at the start of the buffer; the
    buffer keeps its size. *)
Definition store_modules (stored buffer : list HMODULE) : list HMODULE :=
  take (length buffer) (stored ++ drop (length stored) buffer).

(** [WCHAR nameStr[MAX_PATH]] receives the name: a successful query
    stores the [nameSize] characters of the name and the null that ends
    them, a failed one ([nameSize] 0) stores nothing.  The query is told
    [sizeof(nameStr)], the size in bytes, as the number of characters the
    array can take, so it does not cut a name at [MAX_PATH]: what it stores
    is within the array exactly when [nameSize < MAX_PATH]. *)
Definition fits_nameStr (nameStr : list WCHAR) : bool :=
  Z.of_nat (length nameStr) <? MAX_PATH.

(** The body of [for (auto m : modules)], over the modules still to
    visit; [first] is [modules[0]].  The visitor [cb] acts on a state [V]
    of the caller.  [None] is the run in which a query writes past the end
    of [nameStr]: the behaviour of the function is then undefined. *)
Fixpoint visit_modules {V : Type} (cb : SharedLibraryInfo → V → V) (first : HMODULE)
    (ms : list HMODULE) (w : World) (p : Process) (v : V)
    : option (ErrorCode * V * World) :=
  match ms with
  | [] => Some (kSuccess, v, w)
  | m :: rest =>
    let '(nameStr, w) :=
      GetModuleFileNameExW w (_handle p) m (MAX_PATH * sizeof_WCHAR) in
    if (length nameStr =? 0)%nat then Some (TranslateError w, v, w)
    else if negb (fits_nameStr nameStr) then None
    else
      let sl := {| path := unix_path (Platform_WideToNarrowString nameStr);
                   main := (m =? first);
                   sections := [m] |} in
      visit_modules cb first rest w p (cb sl v)
  end.

(** The two native queries that fill [modules]; [inl] is the early
    return of the translated error. *)
Definition query_modules (w : World) (p : Process)
    : (ErrorCode * World) + (list HMODULE * World) :=
  let modules : list HMODULE := [] in
  match EnumProcessModules w (_handle p) (Z.of_nat (length modules) * sizeof_HMODULE) with
  | (None, w) => inl (TranslateError w, w)
  | (Some (_, bytesNeeded), w) =>
    let modules := resize_modules (bytesNeeded / sizeof_HMODULE) in
    match EnumProcessModules w (_handle p) (Z.of_nat (length modules) * sizeof_HMODULE) with
    | (None, w) => inl (TranslateError w, w)
    | (Some (stored, _), w) => inr (store_modules stored modules, w)
    end
  end.

(** [Process::enumerateSharedLibraries]; [None] as in [visit_modules]. *)
Definition enumerateSharedLibraries {V : Type} (cb : SharedLibraryInfo → V → V)
    (w : World) (p : Process) (v : V) : option (ErrorCode * V * World) :=
  match query_modules w p with
  | inl (error, w) => Some (error, v, w)
  | inr (modules, w) => visit_modules cb (hd NULL modules) modules w p v
  end.

End Windows.

(** ** Sequences of transitions of a PendingEvent

    [set] and [reset] are the only public members of the struct; a client
    can only run a sequence of them. *)

Inductive PendingOp : Set :=
| OpSet (thread : Thread)
| OpReset.

Section PendingOps.
Context {H : Host}.

Definition PendingEvent_apply (w : World) (pe : PendingEvent) (op : PendingOp)
    : option (PendingEvent * World) :=
  match op with
  | OpSet thread =>
      match PendingEvent_set w pe thread with
      | Some (pe', _, w') => Some (pe', w')
      | None => None
      end
  | OpReset =>
      match PendingEvent_reset pe with
      | Some pe' => Some (pe', w)
      | None => None
      end
  end.

Fixpoint PendingEvent_run (w : World) (pe : PendingEvent) (ops : list PendingOp)
    : option (PendingEvent * World) :=
  match ops with
  | [] => Some (pe, w)
  | op :: ops' =>
      match PendingEvent_apply w pe op with
      | Some (pe', w') => PendingEvent_run w' pe' ops'
      | None => None
      end
  end.

End PendingOps.

(** [alternates b ops]: the operations alternate, starting with a [set]
    when [b] is true and with a [reset] otherwise. *)
Fixpoint alternates (expect_set : bool) (ops : list PendingOp) : bool :=
  match ops with
  | [] => true
  | OpSet _ :: ops' => expect_set && alternates false ops'
  | OpReset :: ops' => negb expect_set && alternates true ops'
  end.

(** ** A scripted host

    A concrete [Host] on which the model runs: the world carries the
    answers the native calls will give. *)

Record Script : Type := mkScript {
  (** the results of the coming [WaitForDebugEvent] calls; none left: the
      call never returns *)
  sc_events : list (option DEBUG_EVENT);
  sc_lastError : DWORD;
  (** the debuggee's readable memory, from address 0 *)
  sc_memory : list ascii;
  (** when set, every native copy fails with this error after it moved
      what it could *)
  sc_copy_fault : option DWORD;
  (** the result of [Thread::resume] *)
  sc_resume : ErrorCode;
  sc_exit_code : option DWORD;
  sc_terminate : bool;
  sc_free : bool;
  (** the module lists the coming [EnumProcessModules] calls will see *)
  sc_modules : list (list HMODULE);
  (** the file name of a module, by handle *)
  sc_names : HMODULE → list WCHAR
}.

Definition sc_with_events (evs : list (option DEBUG_EVENT)) (e : DWORD) (s : Script) : Script :=
  {| sc_events := evs; sc_lastError := e; sc_memory := sc_memory s;
     sc_copy_fault := sc_copy_fault s; sc_resume := sc_resume s;
     sc_exit_code := sc_exit_code s; sc_terminate := sc_terminate s;
     sc_free := sc_free s; sc_modules := sc_modules s; sc_names := sc_names s |}.

Definition sc_with_error (e : DWORD) (s : Script) : Script :=
  sc_with_events (sc_events s) e s.

Definition sc_with_modules (ms : list (list HMODULE)) (s : Script) : Script :=
  {| sc_events := sc_events s; sc_lastError := sc_lastError s; sc_memory := sc_memory s;
     sc_copy_fault := sc_copy_fault s; sc_resume := sc_resume s;
     sc_exit_code := sc_exit_code s; sc_terminate := sc_terminate s;
     sc_free := sc_free s; sc_modules := ms; sc_names := sc_names s |}.

Definition ERROR_INVALID_HANDLE : DWORD := 6.
Definition ERROR_NOACCESS : DWORD := 998.

Definition script_wait (s : Script) : option (option DEBUG_EVENT * Script) :=
  match sc_events s with
  | [] => None
  | None :: rest => Some (None, sc_with_events rest ERROR_INVALID_HANDLE s)
  | Some de :: rest => Some (Some de, sc_with_events rest (sc_lastError s) s)
  end.

(** A native copy of [length] bytes at [address]. *)
Definition script_copy (s : Script) (address : Z) (length : Z) : bool * list ascii * Z * Script :=
  let avail := take (Z.to_nat length) (drop (Z.to_nat address) (sc_memory s)) in
  let n := Z.of_nat (List.length avail) in
  match sc_copy_fault s with
  | Some e => (false, avail, n, sc_with_error e s)
  | None =>
      if n =? length then (true, avail, n, s)
      else (false, avail, n, sc_with_error (if n =? 0 then ERROR_NOACCESS else ERROR_PARTIAL_COPY) s)
  end.

Definition script_enum (s : Script) (cb : Z) : option (list HMODULE * DWORD) * Script :=
  match sc_modules s with
  | [] => (None, sc_with_error ERROR_INVALID_HANDLE s)
  | ms :: rest =>
      (Some (take (Z.to_nat (cb / 8)) ms, Z.of_nat (List.length ms) * 8),
       sc_with_modules rest s)
  end.

Definition script_translate (e : DWORD) : ErrorCode :=
  if e =? ERROR_ACCESS_DENIED then kErrorAccessDenied
  else if e =? 2 then kErrorNotFound
  else if e =? 87 then kErrorInvalidArgument
  else kErrorUnknown.

Definition script_host : Host := {|
  World := Script;
  GetLastError := sc_lastError;
  WaitForDebugEvent := script_wait;
  CloseHandle := fun w _ => w;
  GetThreadId := fun _ h => h + 1000;
  GetExitCodeProcess := fun w _ =>
    match sc_exit_code w with
    | Some c => (Some c, w)
    | None => (None, sc_with_error ERROR_INVALID_HANDLE w)
    end;
  TerminateProcess := fun w _ _ =>
    if sc_terminate w then (true, w) else (false, sc_with_error ERROR_ACCESS_DENIED w);
  ReadProcessMemory := fun w _ address length => script_copy w address length;
  WriteProcessMemory := fun w _ address _ length =>
    let '(ok, _, n, w') := script_copy w address length in (ok, n, w');
  VirtualFreeEx := fun w _ _ _ _ =>
    if sc_free w then (true, w) else (false, sc_with_error ERROR_ACCESS_DENIED w);
  EnumProcessModules := fun w _ cb => script_enum w cb;
  sizeof_HMODULE := 8;
  GetModuleFileNameExW := fun w _ m _ => (sc_names w m, w);
  MAX_PATH := 260;
  sizeof_WCHAR := 2;
  uninitialized_char := fun _ => "?"%char;
  Platform_TranslateError := script_translate;
  Platform_GetCPUType := 7;
  Platform_GetCPUSubType := 3;
  Platform_GetPointerSize := 8;
  Platform_GetOSTypeName := list_ascii_of_string "windows";
  Platform_GetOSVendorName := list_ascii_of_string "unknown";
  Platform_WideToNarrowString := map (fun c => ascii_of_nat (Z.to_nat c));
  Thread_initial_state := kStopped;
  Thread_initial_stopInfo := {| event := kEventNone; reason := kReasonNone; status := 0 |};
  Thread_suspend := fun w t => (kSuccess, Thread_set_state kSuspended t, w);
  Thread_resume := fun w t =>
    match sc_resume w with
    | kSuccess => (kSuccess, Thread_set_state kRunning t, w)
    | e => (e, t, w)
    end;
  Thread_updateState := fun w t _ =>
    (Thread_set_event kEventStop (Thread_set_state kStopped t), w);
  ProcessBase_suspend := fun w ts => (kSuccess, Thread_set_state kSuspended <$> ts, w)
|}.

(** A quiet script: no event pending, every call succeeds. *)
Definition script0 : Script := {|
  sc_events := [];
  sc_lastError := 0;
  sc_memory := [];
  sc_copy_fault := None;
  sc_resume := kSuccess;
  sc_exit_code := Some 0;
  sc_terminate := true;
  sc_free := true;
  sc_modules := [];
  sc_names := fun _ => []
|}.

Definition sc_with_memory (m : list ascii) (s : Script) : Script :=
  {| sc_events := sc_events s; sc_lastError := sc_lastError s; sc_memory := m;
     sc_copy_fault := sc_copy_fault s; sc_resume := sc_resume s;
     sc_exit_code := sc_exit_code s; sc_terminate := sc_terminate s;
     sc_free := sc_free s; sc_modules := sc_modules s; sc_names := sc_names s |}.

Definition sc_with_copy_fault (f : option DWORD) (s : Script) : Script :=
  {| sc_events := sc_events s; sc_lastError := sc_lastError s; sc_memory := sc_memory s;
     sc_copy_fault := f; sc_resume := sc_resume s;
     sc_exit_code := sc_exit_code s; sc_terminate := sc_terminate s;
     sc_free := sc_free s; sc_modules := sc_modules s; sc_names := sc_names s |}.

Definition sc_with_resume (e : ErrorCode) (s : Script) : Script :=
  {| sc_events := sc_events s; sc_lastError := sc_lastError s; sc_memory := sc_memory s;
     sc_copy_fault := sc_copy_fault s; sc_resume := e;
     sc_exit_code := sc_exit_code s; sc_terminate := sc_terminate s;
     sc_free := sc_free s; sc_modules := sc_modules s; sc_names := sc_names s |}.

Definition sc_with_names (f : HMODULE → list WCHAR) (s : Script) : Script :=
  {| sc_events := sc_events s; sc_lastError := sc_lastError s; sc_memory := sc_memory s;
     sc_copy_fault := sc_copy_fault s; sc_resume := sc_resume s;
     sc_exit_code := sc_exit_code s; sc_terminate := sc_terminate s;
     sc_free := sc_free s; sc_modules := sc_modules s; sc_names := f |}.

Definition info0 : ProcessInfo := {|
  info_pid := 0; realUid := 0; realGid := 0; cpuType := 0; cpuSubType := 0;
  nativeCPUType := 0; nativeCPUSubType := 0; endian := kEndianUnknown;
  pointerSize := 0; archFlags := 0; osType := []; osVendor := []
|}.

(** A thread of the examples, stopped at a breakpoint. *)
Definition thread0 (k : ThreadId) : Thread := {|
  tid := k; t_handle := k + 100; _state := kStopped;
  _stopInfo := {| event := kEventStop; reason := kReasonBreakpoint; status := 0 |}
|}.

(** A debuggee of the examples: process 4242, stopped, one thread 11. *)
Definition process0 : Process := {|
  _pid := 4242; _flags := 0; _handle := 77;
  _pendingEvent := PendingEvent_init;
  _threads := {[ 11 := thread0 11 ]};
  _currentThread := Some 11;
  _terminated := false;
  _info := info0
|}.

Definition debug_event (code : DWORD) (k : DWORD) : DEBUG_EVENT := {|
  dwDebugEventCode := code; dwThreadId := k;
  CreateProcessInfo_hFile := 0; CreateProcessInfo_hProcess := 0;
  CreateProcessInfo_hThread := 0; CreateThread_hThread := k + 100
|}.

(** ** The events a wait harvests *)

Section Harvest.
Context {H : Host}.

(** [harvests w p de wk pk]: the loop of [wait], entered in world [w] on
    the process [p], comes after the passes that go round again to the
    state [(wk, pk)], and the native wait issued there delivers [de]. *)
Inductive harvests : World → Process → DEBUG_EVENT → World → Process → Prop :=
| harvests_now w p de w1 :
    WaitForDebugEvent w = Some (Some de, w1) →
    harvests w p de w p
| harvests_next w p w' p' de wk pk :
    wait_iteration w p = inl (p', w') →
    harvests w' p' de wk pk →
    harvests w p de wk pk.

End Harvest.

(** ** The bytes a string read sees *)

Section ReadChars.
Context {H : Host}.

(** [read_chars n i w p address]: [n] one-byte reads in a row at
    [address + i], [address + i + 1], ..., each of them a success; the
    characters they deliver and the world they leave.  [None] as soon as
    one of the reads fails. *)
Fixpoint read_chars (n : nat) (i : Z) (w : World) (p : Process) (address : Z)
    : option (list ascii * World) :=
  match n with
  | O => Some ([], w)
  | S n' =>
    match read_char w p (Address_add address i) with
    | (kSuccess, c, w1) =>
        match read_chars n' (i + 1) w1 p address with
        | Some (cs, w2) => Some (c :: cs, w2)
        | None => None
        end
    | _ => None
    end
  end.

End ReadChars.

(** ** Module descriptors *)

Section Visited.
Context {H : Host}.

(** What the visitor is handed for the module [m] when [first] is
    [modules[0]]. *)
Definition visited_as (first m : HMODULE) (sl : SharedLibraryInfo) : Prop :=
  sections sl = [m] ∧ main sl = (m =? first) ∧ backslash ∉ path sl.

(** The descriptor the loop builds for the module [m] from the name
    [nameStr] the query returned. *)
Definition descriptor (first m : HMODULE) (nameStr : list WCHAR) : SharedLibraryInfo :=
  {| path := unix_path (Platform_WideToNarrowString nameStr);
     main := (m =? first);
     sections := [m] |}.

(** The file-name queries of the modules [ms], one after the other from
    the world [w], when each of them succeeds with a name that fits
    [nameStr]: the names, and the world after the last query. *)
Fixpoint module_names (ms : list HMODULE) (w : World) (p : Process)
    : option (list (list WCHAR) * World) :=
  match ms with
  | [] => Some ([], w)
  | m :: rest =>
    let '(nameStr, w1) :=
      GetModuleFileNameExW w (_handle p) m (MAX_PATH * sizeof_WCHAR) in
    if (length nameStr =? 0)%nat || negb (fits_nameStr nameStr) then None
    else
      match module_names rest w1 p with
      | Some (names, w2) => Some (nameStr :: names, w2)
      | None => None
      end
  end.

End Visited.

(** ** Scripts of the examples *)

(** A wait that fails in the native call leaves the current thread null. *)
Definition script_wait_fails : Script := sc_with_events [None] 0 script0.
Definition process_after_failed_wait : Process := set_currentThread None process0.
Definition script_after_failed_wait : Script :=
  sc_with_events [] ERROR_INVALID_HANDLE script0.
Definition process_terminated_null : Process :=
  set_terminated true process_after_failed_wait.

(** A thread-created event for thread 12, then an exception in thread 11;
    [r] is what resuming a thread gives. *)
Definition script_new_thread (r : ErrorCode) : Script :=
  sc_with_resume r
    (sc_with_events [Some (debug_event CREATE_THREAD_DEBUG_EVENT 12);
                     Some (debug_event EXCEPTION_DEBUG_EVENT 11)] 0 script0).

Definition script_new_thread_next (r : ErrorCode) : Script :=
  sc_with_resume r
    (sc_with_events [Some (debug_event EXCEPTION_DEBUG_EVENT 11)] 0 script0).

Definition thread12_created : Thread :=
  {| tid := 12; t_handle := 112; _state := kStopped;
     _stopInfo := {| event := kEventNone; reason := kReasonNone; status := 0 |} |}.

Definition process_new_thread (t : Thread) : Process :=
  set_threads (<[12 := t]> (_threads process0)) (set_currentThread (Some 12) process0).

(** The process exits: one event, reported by thread 11. *)
Definition script_exit : Script :=
  sc_with_events [Some (debug_event EXIT_PROCESS_DEBUG_EVENT 11)] 0 script0.

(** Debuggee memory: the characters a, b, the terminator, c, d. *)
Definition script_ab : Script :=
  sc_with_memory (list_ascii_of_string "ab" ++ [NUL] ++ list_ascii_of_string "cd") script0.

(** The same memory on a host whose copies fail with access denied. *)
Definition script_denied : Script :=
  sc_with_copy_fault (Some ERROR_ACCESS_DENIED) script_ab.

Definition wide (s : string) : list WCHAR :=
  map (fun c => Z.of_nat (nat_of_ascii c)) (list_ascii_of_string s).


(** A visitor that records what it is handed. *)
Definition record_visit (sl : SharedLibraryInfo) (seen : list SharedLibraryInfo)
    : list SharedLibraryInfo :=
  seen ++ [sl].

(** ** The rest of the Process interface

    The members of [Process] that the sections above leave out:
    construction, [initialize], [Attach], [Create], [detach], [interrupt],
    [allocateMemory] and [getMemoryRegionInfo]. *)

Definition PAGE_NOACCESS : DWORD := 1.
Definition PAGE_READONLY : DWORD := 2.
Definition PAGE_READWRITE : DWORD := 4.
Definition PAGE_EXECUTE : DWORD := 16.
Definition PAGE_EXECUTE_READ : DWORD := 32.
Definition PAGE_EXECUTE_READWRITE : DWORD := 64.
Definition MEM_COMMIT : DWORD := 4096.
Definition MEM_RESERVE : DWORD := 8192.

Definition set_flags (f : Z) (p : Process) : Process :=
  {| _pid := _pid p; _flags := f; _handle := _handle p;
     _pendingEvent := _pendingEvent p; _threads := _threads p;
     _currentThread := _currentThread p; _terminated := _terminated p;
     _info := _info p |}.

(** What these members need beyond [Host]: more Win32 calls, the
    constants of the portable headers ([kProtection...], [kFlag...]), the
    members inherited from [ProcessBase] (its constructor and destructor,
    [initialize], [resume], [prepareForDetach], [cleanup]) and the
    [ProcessSpawner] collaborator.  Their definitions are absent, so they
    are parameters. *)
Class HostExt {H : Host} : Type := {
  kProtectionRead : Z;
  kProtectionWrite : Z;
  kProtectionExecute : Z;
  kFlagAttachedProcess : Z;
  kFlagNewProcess : Z;
  (** [VirtualAllocEx(h, lpAddress, dwSize, flAllocationType, flProtect)] *)
  VirtualAllocEx : World → HANDLE → Z → size_t → DWORD → DWORD → Z * World;
  DebugBreakProcess : World → HANDLE → bool * World;
  DebugActiveProcess : World → ProcessId → bool * World;
  DebugActiveProcessStop : World → ProcessId → bool * World;
  (** the object as [super()] leaves it *)
  ProcessBase_ctor : Process;
  ProcessBase_dtor : World → Process → World;
  ProcessBase_initialize : World → Process → ProcessId → Z → ErrorCode * Process * World;
  ProcessBase_resume : World → Process → ErrorCode * Process * World;
  ProcessBase_prepareForDetach : World → Process → Process * World;
  ProcessBase_cleanup : World → Process → Process * World;
  ProcessSpawner : Type;
  ProcessSpawner_run : World → ProcessSpawner → ErrorCode * ProcessSpawner * World;
  ProcessSpawner_pid : ProcessSpawner → ProcessId
}.

(** What [Attach] and [Create] come to: a process, or [nullptr], or no
    return at all (the outcome of [initialize] that prevented it). *)
Inductive Launch {H : Host} : Type :=
| Launched (p : Process) (w : World)
| NotLaunched (w : World)
| NoReturn (why : option (Outcome ErrorCode)).

Section Lifecycle.
Context {H : Host} {HX : HostExt}.

(** [Process::Process() : super(), _handle(nullptr), _pendingEvent()] *)
Definition Process_ctor : Process :=
  set_pendingEvent PendingEvent_init (set_handle NULL ProcessBase_ctor).

(** [delete process]: [~Process] closes the handle, then the destructor of
    the base class runs. *)
Definition Process_delete (w : World) (p : Process) : World :=
  ProcessBase_dtor (CloseHandle w (_handle p)) p.

(** [currentThread()->stopInfo()]: [None] when the pointer is null or the
    Thread it points to is not registered any more, a dereference the
    source leaves undefined. *)
Definition currentThread_stopInfo (p : Process) : option StopInfo :=
  match _currentThread p with
  | Some k => _stopInfo <$> (_threads p !! k)
  | None => None
  end.

(** The condition of the [do ... while] of [initialize]. *)
Definition not_at_breakpoint (si : StopInfo) : bool :=
  negb (match event si with kEventStop => true | _ => false end)
  || negb (match reason si with kReasonBreakpoint => true | _ => false end).

(** The [do ... while] loop of [Process::initialize], with a budget of
    [rounds] turns; each [wait] has the budget [fuel].  [None] is the
    undefined dereference in the loop condition. *)
Fixpoint initialize_loop (rounds fuel : nat) (w : World) (p : Process)
    : option (Outcome ErrorCode) :=
  match rounds with
  | O => Some OutOfFuel
  | S rounds' =>
    let '(error, p, w) := ProcessBase_resume w p in
    match error with
    | kSuccess =>
      match wait fuel w p with
      | Returned kSuccess p w =>
          match currentThread_stopInfo p with
          | None => None
          | Some si =>
              if not_at_breakpoint si then initialize_loop rounds' fuel w p
              else Some (Returned kSuccess p w)
          end
      | out => Some out
      end
    | _ => Some (Returned error p w)
    end
  end.

(** [Process::initialize] *)
Definition initialize (rounds fuel : nat) (w : World) (p : Process)
    (pid : ProcessId) (flags : Z) : option (Outcome ErrorCode) :=
  match wait fuel w p with
  | Returned kSuccess p w =>
      let '(error, p, w) := ProcessBase_initialize w p pid flags in
      match error with
      | kSuccess => initialize_loop rounds fuel w p
      | _ => Some (Returned error p w)
      end
  | out => Some out
  end.

(** [auto process = new Process; error = process->initialize(pid, flags);]
    and what follows it, the common end of [Attach] and [Create]. *)
Definition launch (rounds fuel : nat) (w : World) (pid : ProcessId) (flags : Z) : Launch :=
  match initialize rounds fuel w Process_ctor pid flags with
  | Some (Returned kSuccess p w) => Launched p w
  | Some (Returned _ p w) => NotLaunched (Process_delete w p)
  | why => NoReturn why
  end.

(** [Process::Attach] *)
Definition Attach (rounds fuel : nat) (w : World) (pid : ProcessId) : Launch :=
  if pid <=? 0 then NotLaunched w
  else
    let '(result, w) := DebugActiveProcess w pid in
    if negb result then NotLaunched w
    else launch rounds fuel w pid kFlagAttachedProcess.

(** [Process::Create] *)
Definition Create (rounds fuel : nat) (w : World) (spawner : ProcessSpawner)
    : Launch * ProcessSpawner :=
  let '(error, spawner, w) := ProcessSpawner_run w spawner in
  match error with
  | kSuccess => (launch rounds fuel w (ProcessSpawner_pid spawner) kFlagNewProcess, spawner)
  | _ => (NotLaunched w, spawner)
  end.

(** [~kFlagAttachedProcess] as the 32-bit operand of [&=]. *)
Definition not_attached_mask : Z := Z.lnot kFlagAttachedProcess mod 2 ^ 32.

(** [Process::detach] *)
Definition detach (w : World) (p : Process) : ErrorCode * Process * World :=
  let '(p, w) := ProcessBase_prepareForDetach w p in
  let '(result, w) := DebugActiveProcessStop w (_pid p) in
  if negb result then (TranslateError w, p, w)
  else
    let '(p, w) := ProcessBase_cleanup w p in
    (kSuccess, set_flags (Z.land (_flags p) not_attached_mask) p, w).

(** [Process::interrupt] *)
Definition interrupt (w : World) (p : Process) : ErrorCode * World :=
  let '(result, w) := DebugBreakProcess w (_handle p) in
  if negb result then (TranslateError w, w)
  else (kSuccess, w).

(** The protection constant [Process::allocateMemory] computes from the
    portable flags. *)
Definition allocProtection (protection : Z) : DWORD :=
  if negb (Z.land protection kProtectionExecute =? 0) then
    if negb (Z.land protection kProtectionWrite =? 0) then PAGE_EXECUTE_READWRITE
    else if negb (Z.land protection kProtectionRead =? 0) then PAGE_EXECUTE_READ
    else PAGE_EXECUTE
  else
    if negb (Z.land protection kProtectionWrite =? 0) then PAGE_READWRITE
    else if negb (Z.land protection kProtectionRead =? 0) then PAGE_READONLY
    else PAGE_NOACCESS.

(** [Process::allocateMemory]: the result, the cell behind [address], the
    world. *)
Definition allocateMemory (w : World) (p : Process) (size : size_t) (protection : Z)
    (address : Z) : ErrorCode * Z * World :=
  let '(result, w) :=
    VirtualAllocEx w (_handle p) NULL size (Z.lor MEM_COMMIT MEM_RESERVE)
      (allocProtection protection) in
  if result =? NULL then (TranslateError w, address, w)
  else (kSuccess, result, w).

(** [Process::getMemoryRegionInfo] (Process.h) *)
Definition getMemoryRegionInfo (address : Z) : ErrorCode := kErrorUnsupported.

End Lifecycle.

(** A path that starts with a drive: a first character whose code is
    from 65 (A) to 90 (Z), then the character of code 58 (the colon). *)
Definition has_drive_prefix (path : std_string) : bool :=
  match path with
  | c0 :: c1 :: _ =>
      (65 <=? nat_of_ascii c0)%nat && (nat_of_ascii c0 <=? 90)%nat
      && (nat_of_ascii c1 =? 58)%nat
  | _ => false
  end.

(** ** What a pass of the loop keeps *)

(** The fields no pass of the loop of [wait] writes. *)
Definition same_identity (p p' : Process) : Prop :=
  _pid p' = _pid p ∧ _flags p' = _flags p ∧ _info p' = _info p.

(** Every Thread is registered under its own id. *)
Definition threads_keyed (ts : gmap Z Thread) : Prop :=
  ∀ k t, ts !! k = Some t → tid t = k.

(** The event codes with a case in the [switch] of [wait]. *)
Definition known_event_code (code : DWORD) : bool :=
  (code =? EXCEPTION_DEBUG_EVENT) || (code =? CREATE_THREAD_DEBUG_EVENT)
  || (code =? CREATE_PROCESS_DEBUG_EVENT) || (code =? EXIT_THREAD_DEBUG_EVENT)
  || (code =? EXIT_PROCESS_DEBUG_EVENT) || (code =? LOAD_DLL_DEBUG_EVENT)
  || (code =? UNLOAD_DLL_DEBUG_EVENT) || (code =? OUTPUT_DEBUG_STRING_EVENT).

(** The event codes of the last case of the [switch]: the stops the
    caller is told about. *)
Definition stop_event_code (code : DWORD) : bool :=
  (code =? EXCEPTION_DEBUG_EVENT) || (code =? LOAD_DLL_DEBUG_EVENT)
  || (code =? UNLOAD_DLL_DEBUG_EVENT) || (code =? OUTPUT_DEBUG_STRING_EVENT).

Section HostLaws.
Context {H : Host}.

(** The id of a Thread is fixed at construction: the methods of [Thread]
    and the inherited [suspend()] leave every Thread under its id. *)
Definition keeps_tid : Prop :=
  (∀ w t, tid (Thread_suspend w t).1.2 = tid t)
  ∧ (∀ w t, tid (Thread_resume w t).1.2 = tid t)
  ∧ (∀ w t de, tid (Thread_updateState w t de).1 = tid t)
  ∧ (∀ w ts, threads_keyed ts → threads_keyed (ProcessBase_suspend w ts).1.2).

End HostLaws.

(** ** A scripted host that stops at breakpoints

    The scripted host again, except that an exception event is recorded
    as a breakpoint stop, with scripted versions of the further calls and
    inherited members. *)

Definition script_updateState (w : Script) (t : Thread) (de : DEBUG_EVENT)
    : Thread * Script :=
  ({| tid := tid t; t_handle := t_handle t; _state := kStopped;
      _stopInfo :=
        {| event := kEventStop;
           reason := if dwDebugEventCode de =? EXCEPTION_DEBUG_EVENT
                     then kReasonBreakpoint else kReasonNone;
           status := status (_stopInfo t) |} |}, w).

Definition script_host_bp : Host := {|
  World := Script;
  GetLastError := @GetLastError script_host;
  WaitForDebugEvent := @WaitForDebugEvent script_host;
  CloseHandle := @CloseHandle script_host;
  GetThreadId := @GetThreadId script_host;
  GetExitCodeProcess := @GetExitCodeProcess script_host;
  TerminateProcess := @TerminateProcess script_host;
  ReadProcessMemory := @ReadProcessMemory script_host;
  WriteProcessMemory := @WriteProcessMemory script_host;
  VirtualFreeEx := @VirtualFreeEx script_host;
  EnumProcessModules := @EnumProcessModules script_host;
  sizeof_HMODULE := @sizeof_HMODULE script_host;
  GetModuleFileNameExW := @GetModuleFileNameExW script_host;
  MAX_PATH := @MAX_PATH script_host;
  sizeof_WCHAR := @sizeof_WCHAR script_host;
  uninitialized_char := @uninitialized_char script_host;
  Platform_TranslateError := @Platform_TranslateError script_host;
  Platform_GetCPUType := @Platform_GetCPUType script_host;
  Platform_GetCPUSubType := @Platform_GetCPUSubType script_host;
  Platform_GetPointerSize := @Platform_GetPointerSize script_host;
  Platform_GetOSTypeName := @Platform_GetOSTypeName script_host;
  Platform_GetOSVendorName := @Platform_GetOSVendorName script_host;
  Platform_WideToNarrowString := @Platform_WideToNarrowString script_host;
  Thread_initial_state := @Thread_initial_state script_host;
  Thread_initial_stopInfo := @Thread_initial_stopInfo script_host;
  Thread_suspend := @Thread_suspend script_host;
  Thread_resume := @Thread_resume script_host;
  Thread_updateState := script_updateState;
  ProcessBase_suspend := @ProcessBase_suspend script_host
|}.

(** The object a scripted [super()] leaves. *)
Definition script_base_process : Process := {|
  _pid := 0; _flags := 0; _handle := 0; _pendingEvent := PendingEvent_init;
  _threads := ∅; _currentThread := None; _terminated := false; _info := info0
|}.

Definition script_base_initialize (w : Script) (p : Process) (pid : ProcessId) (flags : Z)
    : ErrorCode * Process * Script :=
  (kSuccess,
   {| _pid := pid; _flags := flags; _handle := _handle p;
      _pendingEvent := _pendingEvent p; _threads := _threads p;
      _currentThread := _currentThread p; _terminated := _terminated p;
      _info := _info p |}, w).

(** The scripted [resume()]: what [sc_resume] says; a successful resume
    acknowledges the pending event. *)
Definition script_base_resume (w : Script) (p : Process) : ErrorCode * Process * Script :=
  match sc_resume w with
  | kSuccess => (kSuccess, set_pendingEvent PendingEvent_init p, w)
  | e => (e, p, w)
  end.

Definition script_ext : @HostExt script_host_bp := {|
  kProtectionRead := 1;
  kProtectionWrite := 2;
  kProtectionExecute := 4;
  kFlagAttachedProcess := 1;
  kFlagNewProcess := 2;
  VirtualAllocEx := fun (w : @World script_host_bp) _ _ _ _ _ =>
    if sc_free w then (65536, w) else (0, sc_with_error 8 w);
  DebugBreakProcess := fun (w : @World script_host_bp) _ => (true, w);
  DebugActiveProcess := fun (w : @World script_host_bp) _ => (true, w);
  DebugActiveProcessStop := fun (w : @World script_host_bp) _ =>
    if sc_terminate w then (true, w) else (false, sc_with_error ERROR_ACCESS_DENIED w);
  ProcessBase_ctor := script_base_process;
  ProcessBase_dtor := fun (w : @World script_host_bp) _ => w;
  ProcessBase_initialize := script_base_initialize;
  ProcessBase_resume := script_base_resume;
  ProcessBase_prepareForDetach := fun (w : @World script_host_bp) p => (p, w);
  ProcessBase_cleanup := fun (w : @World script_host_bp) p =>
    (set_threads ∅ (set_currentThread None p), w);
  ProcessSpawner := ProcessId;
  ProcessSpawner_run := fun (w : @World script_host_bp) s => (kSuccess, s, w);
  ProcessSpawner_pid := fun s => s
|}.

(** The events of a launch: the process is created, then its main thread
    (handle 5, so id 1005 on the scripted host) hits a breakpoint. *)
Definition script_launch : Script :=
  sc_with_events
    [Some {| dwDebugEventCode := CREATE_PROCESS_DEBUG_EVENT; dwThreadId := 1005;
             CreateProcessInfo_hFile := 3; CreateProcessInfo_hProcess := 77;
             CreateProcessInfo_hThread := 5; CreateThread_hThread := 0 |};
     Some (debug_event EXCEPTION_DEBUG_EVENT 1005)] 0 script0.

(** The main thread exits instead of reporting the process exit: thread 12
    exits first, then thread 11. *)
Definition process_two_threads : Process :=
  set_threads (<[12 := thread0 12]> (_threads process0)) process0.

(** Thread 12 exits, then the process does. *)
Definition script_thread_exit : Script :=
  sc_with_events [Some (debug_event EXIT_THREAD_DEBUG_EVENT 12);
                  Some (debug_event EXIT_PROCESS_DEBUG_EVENT 11)] 0 script0.

Definition script_thread_exit_next : Script :=
  sc_with_events [Some (debug_event EXIT_PROCESS_DEBUG_EVENT 11)] 0 script0.

(** An exception in thread 11. *)
Definition script_exception : Script :=
  sc_with_events [Some (debug_event EXCEPTION_DEBUG_EVENT 11)] 0 script0.

(** An event with a code the switch does not know. *)
Definition script_rip : Script :=
  sc_with_events [Some (debug_event RIP_EVENT 11)] 0 script0.

(** Debuggee memory that ends after two characters. *)
Definition script_ab_only : Script :=
  sc_with_memory (list_ascii_of_string "ab") script0.

(** Three modules, the last of which has no file name. *)
Definition script_three_modules : Script :=
  sc_with_names
    (fun m => if m =? 10 then wide "C:\app\a.exe"
              else if m =? 20 then wide "C:\Windows\k.dll" else [])
    (sc_with_modules [[10; 20; 30]; [10; 20; 30]] script0).

(** Three modules at the first query, one at the second. *)
Definition script_fewer_modules : Script :=
  sc_with_modules [[10; 20; 30]; [10]] script0.

(** A host on which [suspend()] fails: the native suspension is refused,
    the call returns an error and the thread stays as it was.  All the
    rest is [script_host]. *)
Definition script_host_no_suspend : Host := {|
  World := Script;
  GetLastError := @GetLastError script_host;
  WaitForDebugEvent := @WaitForDebugEvent script_host;
  CloseHandle := @CloseHandle script_host;
  GetThreadId := @GetThreadId script_host;
  GetExitCodeProcess := @GetExitCodeProcess script_host;
  TerminateProcess := @TerminateProcess script_host;
  ReadProcessMemory := @ReadProcessMemory script_host;
  WriteProcessMemory := @WriteProcessMemory script_host;
  VirtualFreeEx := @VirtualFreeEx script_host;
  EnumProcessModules := @EnumProcessModules script_host;
  sizeof_HMODULE := @sizeof_HMODULE script_host;
  GetModuleFileNameExW := @GetModuleFileNameExW script_host;
  MAX_PATH := @MAX_PATH script_host;
  sizeof_WCHAR := @sizeof_WCHAR script_host;
  uninitialized_char := @uninitialized_char script_host;
  Platform_TranslateError := @Platform_TranslateError script_host;
  Platform_GetCPUType := @Platform_GetCPUType script_host;
  Platform_GetCPUSubType := @Platform_GetCPUSubType script_host;
  Platform_GetPointerSize := @Platform_GetPointerSize script_host;
  Platform_GetOSTypeName := @Platform_GetOSTypeName script_host;
  Platform_GetOSVendorName := @Platform_GetOSVendorName script_host;
  Platform_WideToNarrowString := @Platform_WideToNarrowString script_host;
  Thread_initial_state := @Thread_initial_state script_host;
  Thread_initial_stopInfo := @Thread_initial_stopInfo script_host;
  Thread_suspend := fun w t => (kErrorUnknown, t, w);
  Thread_resume := @Thread_resume script_host;
  Thread_updateState := @Thread_updateState script_host;
  ProcessBase_suspend := @ProcessBase_suspend script_host
|}.

(** A thread that runs. *)
Definition thread_running (k : ThreadId) : Thread := {|
  tid := k; t_handle := k + 100; _state := kRunning;
  _stopInfo := {| event := kEventNone; reason := kReasonNone; status := 0 |}
|}.


(** Module 10 has a name of [n] characters. *)
Definition script_long_name (n : nat) : Script :=
  sc_with_names
    (fun m => if m =? 10 then repeat 97 n
              else if m =? 20 then wide "C:\Windows\k.dll" else [])
    (sc_with_modules [[10; 20]; [10; 20]] script0).

(** ** Properties *)

Section Properties.
Context {H : Host}.

(** *** PendingEvent *)

Lemma PendingEvent_set_invalid w pe t :
  _valid pe = false →
  PendingEvent_set w pe t =
    Some ({| _valid := true; pe_tid := tid t |},
          (Thread_suspend w t).1.2, (Thread_suspend w t).2).
Proof.
  intros Hv. unfold PendingEvent_set. rewrite Hv.
  destruct (Thread_suspend w t) as [[e t'] w']. reflexivity.
Qed.

Lemma PendingEvent_set_valid w pe t :
  _valid pe = true → PendingEvent_set w pe t = None.
Proof. intros Hv. unfold PendingEvent_set. rewrite Hv. reflexivity. Qed.

Lemma PendingEvent_set_Some w pe t pe' t' w' :
  PendingEvent_set w pe t = Some (pe', t', w') →
  _valid pe = false ∧ _valid pe' = true ∧ pe_tid pe' = tid t.
Proof.
  unfold PendingEvent_set. destruct (_valid pe); [discriminate|].
  destruct (Thread_suspend w t) as [[e t''] w''].
  intros [= <- <- <-]. auto.
Qed.

Lemma PendingEvent_apply_valid w pe op pe' w' :
  PendingEvent_apply w pe op = Some (pe', w') →
  _valid pe' = negb (_valid pe).
Proof.
  destruct op as [t|]; simpl.
  - destruct (PendingEvent_set w pe t) as [[[pe1 t1] w1]|] eqn:E; [|discriminate].
    intros [= <- <-]. apply PendingEvent_set_Some in E as (-> & -> & _). reflexivity.
  - unfold PendingEvent_reset. destruct (_valid pe); [|discriminate].
    intros [= <- <-]. reflexivity.
Qed.

Lemma PendingEvent_apply_is_Some w pe op :
  is_Some (PendingEvent_apply w pe op) ↔
  match op with OpSet _ => _valid pe = false | OpReset => _valid pe = true end.
Proof.
  destruct op as [t|]; simpl.
  - unfold PendingEvent_set. destruct (_valid pe).
    + split; [intros [? ?]; discriminate | discriminate].
    + destruct (Thread_suspend w t) as [[e t'] w']. split; eauto.
  - unfold PendingEvent_reset. destruct (_valid pe).
    + split; eauto.
    + split; [intros [? ?]; discriminate | discriminate].
Qed.

Lemma PendingEvent_run_alternates w pe ops :
  is_Some (PendingEvent_run w pe ops) ↔ alternates (negb (_valid pe)) ops = true.
Proof.
  revert w pe. induction ops as [|op ops IH]; intros w pe; simpl.
  - split; eauto.
  - destruct (PendingEvent_apply w pe op) as [[pe' w']|] eqn:E.
    + rewrite IH. rewrite (PendingEvent_apply_valid _ _ _ _ _ E).
      assert (Hs : is_Some (PendingEvent_apply w pe op)) by (rewrite E; eauto).
      apply PendingEvent_apply_is_Some in Hs.
      destruct op; rewrite Hs; simpl; reflexivity.
    + assert (Hn : ¬ is_Some (PendingEvent_apply w pe op)).
      { rewrite E. intros [? ?]; discriminate. }
      rewrite PendingEvent_apply_is_Some in Hn.
      split; [intros [? ?]; discriminate|].
      destruct op; destruct (_valid pe); simpl in *; try discriminate;
        intros _; exfalso; apply Hn; reflexivity.
Qed.

(** C5.  The two transitions of a PendingEvent.  [set] on an event that is
    not valid makes it valid, records the id of the thread and calls the
    thread's [suspend], whose result it drops: the event is valid and the
    thread is as [suspend] left it, whatever [suspend] returned.  [set] on
    a valid event fails its assertion, so a second [set] with no [reset] in
    between is an assertion failure; [reset] on a valid event clears it and
    on an event that is not valid fails its assertion.  A sequence of
    transitions runs to its end exactly when it alternates [set] and
    [reset]. *)
Theorem pendingEvent_transitions :
  (∀ w pe t e t' w', _valid pe = false →
     Thread_suspend w t = (e, t', w') →
     PendingEvent_set w pe t = Some ({| _valid := true; pe_tid := tid t |}, t', w'))
  ∧ (∀ w pe t, _valid pe = true → PendingEvent_set w pe t = None)
  ∧ (∀ w pe t pe' t' w' t2,
       PendingEvent_set w pe t = Some (pe', t', w') →
       PendingEvent_set w' pe' t2 = None)
  ∧ (∀ pe, _valid pe = true →
       PendingEvent_reset pe = Some {| _valid := false; pe_tid := 0 |})
  ∧ (∀ pe, _valid pe = false → PendingEvent_reset pe = None)
  ∧ (∀ w pe ops,
       is_Some (PendingEvent_run w pe ops) ↔ alternates (negb (_valid pe)) ops = true).
Proof.
  repeat split.
  - intros w pe t e t' w' Hv Hs.
    rewrite (PendingEvent_set_invalid _ _ _ Hv), Hs. reflexivity.
  - apply PendingEvent_set_valid.
  - intros w pe t pe' t' w' t2 E.
    apply PendingEvent_set_Some in E as (_ & Hv & _).
    now apply PendingEvent_set_valid.
  - intros pe Hv. unfold PendingEvent_reset. now rewrite Hv.
  - intros pe Hv. unfold PendingEvent_reset. now rewrite Hv.
  - apply PendingEvent_run_alternates.
  - apply PendingEvent_run_alternates.
Qed.

(** *** wait() on a terminated process *)

Lemma update_thread_lookup k f p t :
  _threads p !! k = Some t →
  _threads (update_thread k f p) !! k = Some (f t).
Proof. intros Ht. unfold update_thread; simpl. rewrite lookup_alter_eq, Ht. reflexivity. Qed.

Lemma update_thread_lookup_ne k k' f p :
  k ≠ k' → _threads (update_thread k f p) !! k' = _threads p !! k'.
Proof. intros Hne. unfold update_thread; simpl. now rewrite lookup_alter_ne. Qed.

Lemma wait_terminated_null fuel w p :
  _terminated p = true → _currentThread p = None →
  wait fuel w p = AssertionFailure.
Proof. intros Ht Hc. unfold wait. now rewrite Ht, Hc. Qed.

(** C1, as amended.  On a process whose terminated flag is set and whose
    cached current thread is not null, [wait] returns Success at once,
    whatever the native event source would do and with any loop budget: the
    world is untouched, the stop event of the current thread is Kill, and
    nothing else of the process changes. *)
Theorem wait_terminated fuel w p k :
  _terminated p = true →
  _currentThread p = Some k →
  ∃ p', wait fuel w p = Returned kSuccess p' w
    ∧ p' = update_thread k (Thread_set_event kEventKill) p
    ∧ (∀ t, _threads p !! k = Some t →
         ∃ t', _threads p' !! k = Some t'
           ∧ event (_stopInfo t') = kEventKill
           ∧ t' = Thread_set_event kEventKill t)
    ∧ (∀ k', k ≠ k' → _threads p' !! k' = _threads p !! k')
    ∧ _currentThread p' = Some k
    ∧ _pendingEvent p' = _pendingEvent p
    ∧ _terminated p' = true.
Proof.
  intros Ht Hc. unfold wait. rewrite Ht, Hc.
  eexists. split; [reflexivity|]. split; [reflexivity|].
  split; [|split; [|repeat split; simpl; auto]].
  - intros t Hk. eexists. split; [apply update_thread_lookup; exact Hk|].
    split; reflexivity.
  - intros k' Hne. now apply update_thread_lookup_ne.
Qed.

(** *** wait(): the loop *)

(** Settles the tests of the [switch] once the event code is known. *)
Ltac switch_on_code Hcode :=
  unfold wait_iteration; rewrite Hcode;
  repeat match goal with
  | |- context [Z.eqb ?a ?b] =>
      first [ change (Z.eqb a b) with true | change (Z.eqb a b) with false ]
  end;
  cbv iota.

Lemma map_size_1_lookup (m : gmap Z Thread) k t :
  size m = 1%nat → m !! k = Some t → m = {[ k := t ]}.
Proof.
  intros Hs Hk.
  pose proof (map_size_delete_Some k m (ex_intro _ t Hk)) as Hd.
  rewrite Hs in Hd. simpl in Hd.
  apply map_size_empty_inv in Hd.
  rewrite <- (insert_delete_id m k t Hk), Hd. reflexivity.
Qed.

(** A pass that ends the call ends every loop that reaches it, given the
    budget to get there. *)
Lemma harvests_wait_loop w p de wk pk out :
  harvests w p de wk pk →
  wait_iteration wk pk = inr out →
  ∃ n, ∀ fuel, wait_loop fuel w p = if (fuel <=? n)%nat then OutOfFuel else out.
Proof.
  intros Hh. induction Hh as [w p de w1 Hw | w p w' p' de wk pk Hi Hh IH]; intros Ho.
  - exists 0%nat. intros [|fuel]; simpl; [reflexivity|]. now rewrite Ho.
  - destruct (IH Ho) as [n Hn]. exists (S n).
    intros [|fuel]; [reflexivity|].
    cbn [wait_loop]. rewrite Hi, Hn. reflexivity.
Qed.

Lemma pendingEvent_set_current_Some w k t p p' w' :
  pendingEvent_set_current w k t p = Some (p', w') →
  _valid (_pendingEvent p) = false
  ∧ _pendingEvent p' = {| _valid := true; pe_tid := tid t |}
  ∧ _threads p' = <[k := (Thread_suspend w t).1.2]> (_threads p)
  ∧ w' = (Thread_suspend w t).2
  ∧ _currentThread p' = _currentThread p
  ∧ _terminated p' = _terminated p
  ∧ _handle p' = _handle p.
Proof.
  unfold pendingEvent_set_current, PendingEvent_set.
  destruct (_valid (_pendingEvent p)); [discriminate|].
  destruct (Thread_suspend w t) as [[e t'] w''].
  intros [= <- <-]. simpl. repeat split.
Qed.

(** The pass of the loop that receives a process-exited event. *)
Lemma wait_iteration_exit_process w p de w1 :
  WaitForDebugEvent w = Some (Some de, w1) →
  dwDebugEventCode de = EXIT_PROCESS_DEBUG_EVENT →
  ∃ out, wait_iteration w p = inr out
    ∧ (size (_threads p) ≠ 1%nat → out = AssertionFailure)
    ∧ (_threads p !! dwThreadId de = None → out = AssertionFailure)
    ∧ (out = Blocks → False) ∧ (out = OutOfFuel → False)
    ∧ (∀ e p' w', out = Returned e p' w' →
         ∃ t t', _threads p = {[ dwThreadId de := t ]}
           ∧ _threads p' = {[ dwThreadId de := t' ]}
           ∧ _state t' = kTerminated
           ∧ _currentThread p' = Some (dwThreadId de)
           ∧ _pendingEvent p' = {| _valid := true; pe_tid := tid t |}
           ∧ _terminated p' = true).
Proof.
  intros Hw Hc. unfold wait_iteration. rewrite Hw. switch_on_code Hc.
  unfold findThread.
  change (_threads (set_currentThread None p)) with (_threads p).
  destruct (Nat.eqb_spec (size (_threads p)) 1) as [Hs|Hs]; cbn [negb].
  2:{ eexists. split; [reflexivity|]. repeat split; try discriminate; auto. }
  destruct (_threads p !! dwThreadId de) as [t|] eqn:Ht.
  2:{ eexists. split; [reflexivity|]. repeat split; try discriminate; auto. }
  pose proof (map_size_1_lookup _ _ _ Hs Ht) as Hm.
  destruct (pendingEvent_set_current _ _ _ _) as [[p1 w2]|] eqn:Hp.
  2:{ eexists. split; [reflexivity|]. repeat split; try discriminate; auto. }
  apply pendingEvent_set_current_Some in Hp
    as (_ & Hpe & Hts & _ & Hcur & _ & _).
  simpl in Hts, Hcur. rewrite Hm, insert_singleton_eq in Hts.
  destruct (GetExitCodeProcess _ _) as [[exitCode|] w3];
    (eexists; split; [reflexivity|]);
    (split; [intros; congruence|]);
    (split; [intros; congruence|]);
    (split; [discriminate|]); (split; [discriminate|]);
    intros e p' w' [= <- <- <-]; exists t; eexists;
    (split; [exact Hm|]); unfold update_thread; simpl;
    rewrite Hts, ?alter_singleton_eq;
    (split; [reflexivity|]); simpl; auto.
Qed.

(** C2.  A [wait] on a live process reaches, after the passes that go
    round again, a state [(wk, pk)] in which a process-exited event [de]
    arrives.  If the call returns at all, the thread set of [pk] held
    exactly one Thread, registered under the id of the thread reporting the
    event, and that Thread is the current one afterwards (marked pending,
    Terminated, in a terminated process).  If the thread set held another
    number of Threads, or the one Thread is not the reporting one, the call
    is an assertion failure: it never returns. *)
Theorem wait_exit_process_one_thread fuel w p de wk pk :
  _terminated p = false →
  harvests w p de wk pk →
  dwDebugEventCode de = EXIT_PROCESS_DEBUG_EVENT →
  (∀ e p' w', wait fuel w p = Returned e p' w' →
     size (_threads pk) = 1%nat
     ∧ ∃ t t', _threads pk = {[ dwThreadId de := t ]}
         ∧ _threads p' = {[ dwThreadId de := t' ]}
         ∧ _state t' = kTerminated
         ∧ _currentThread p' = Some (dwThreadId de)
         ∧ _pendingEvent p' = {| _valid := true; pe_tid := tid t |}
         ∧ _terminated p' = true)
  ∧ (size (_threads pk) ≠ 1%nat ∨ _threads pk !! dwThreadId de = None →
     ∃ n, ∀ fuel', (n < fuel')%nat → wait fuel' w p = AssertionFailure).
Proof.
  intros Hterm Hh Hc.
  assert (Hwk : ∃ w1, WaitForDebugEvent wk = Some (Some de, w1)).
  { clear -Hh. induction Hh; eauto. }
  destruct Hwk as [w1 Hwk].
  destruct (wait_iteration_exit_process wk pk de w1 Hwk Hc)
    as (out & Hout & Hsize & Hmiss & Hnb & Hnf & Hret).
  destruct (harvests_wait_loop _ _ _ _ _ _ Hh Hout) as [n Hn].
  split.
  - intros e p' w' Hwait. unfold wait in Hwait. rewrite Hterm, Hn in Hwait.
    destruct (fuel <=? n)%nat; [discriminate|].
    destruct (Hret e p' w' Hwait) as (t & t' & Hm & Hrest).
    split; [rewrite Hm; apply map_size_singleton|].
    exists t, t'. split; [exact Hm | exact Hrest].
  - intros Hbad. exists n. intros fuel' Hlt.
    unfold wait. rewrite Hterm, Hn.
    destruct (Nat.leb_spec fuel' n); [lia|].
    destruct Hbad as [Hb|Hb]; auto.
Qed.

(** The pass of the loop that receives a thread-created event. *)
Lemma wait_iteration_create_thread w p de w1 error t1 w2 :
  WaitForDebugEvent w = Some (Some de, w1) →
  dwDebugEventCode de = CREATE_THREAD_DEBUG_EVENT →
  Thread_resume w1
    (Thread_ctor Thread_initial_state Thread_initial_stopInfo
       (dwThreadId de) (CreateThread_hThread de)) = (error, t1, w2) →
  wait_iteration w p =
    let p' := set_threads (<[dwThreadId de := t1]> (_threads p))
                (set_currentThread (Some (dwThreadId de)) p) in
    match error with
    | kSuccess => inl (p', w2)
    | _ => inr (Returned error p' w2)
    end.
Proof.
  intros Hw Hc Hr. unfold wait_iteration. rewrite Hw. switch_on_code Hc.
  rewrite Hr.
  unfold ProcessBase_insert, Thread_ctor, set_threads, set_currentThread; simpl.
  rewrite insert_insert_eq. destruct error; reflexivity.
Qed.

(** C4, as amended.  When a [wait] on a live process receives a
    thread-created event, the new Thread, built from the event and resumed
    at once, is registered under the id the event carries and becomes the
    current thread; no event is marked pending.  If the resume succeeds the
    call goes on as a wait from the new state, so it does not return from
    this pass; if the resume fails the call returns the error of the
    resume, which is not Success. *)
Theorem wait_thread_created fuel w p de w1 error t1 w2 :
  _terminated p = false →
  WaitForDebugEvent w = Some (Some de, w1) →
  dwDebugEventCode de = CREATE_THREAD_DEBUG_EVENT →
  Thread_resume w1
    (Thread_ctor Thread_initial_state Thread_initial_stopInfo
       (dwThreadId de) (CreateThread_hThread de)) = (error, t1, w2) →
  ∃ p', _threads p' = <[dwThreadId de := t1]> (_threads p)
    ∧ _currentThread p' = Some (dwThreadId de)
    ∧ _pendingEvent p' = _pendingEvent p
    ∧ _terminated p' = false
    ∧ (error = kSuccess → wait (S fuel) w p = wait fuel w2 p')
    ∧ (error ≠ kSuccess → wait (S fuel) w p = Returned error p' w2).
Proof.
  intros Hterm Hw Hc Hr.
  pose proof (wait_iteration_create_thread w p de w1 error t1 w2 Hw Hc Hr) as Hi.
  cbv zeta in Hi.
  eexists. split; [|split; [|split; [|split; [|split]]]].
  6:{ intros Hne. unfold wait. rewrite Hterm. cbn [wait_loop]. rewrite Hi.
      destruct error; [congruence|reflexivity..]. }
  5:{ intros ->. unfold wait at 1. rewrite Hterm. cbn [wait_loop]. rewrite Hi.
      unfold wait. simpl. rewrite Hterm. reflexivity. }
  all: simpl; auto.
Qed.

(** *** Memory access *)

(** C3, as amended.  [readMemory] and [writeMemory] store the byte count
    the native call reports through a non-null [nread] / [nwritten],
    whether or not the call failed.  A native success, and a native
    partial-copy error with a nonzero count, give Success.  Any other
    failure of the native call returns the translation of the native error:
    a result other than Success means that the native call failed and that
    either its error is not the partial-copy error or no byte was
    transferred. *)
Theorem memory_transfer_result w p address length :
  (∀ nread result data bytesRead w1,
     ReadProcessMemory w (_handle p) address length = (result, data, bytesRead, w1) →
     ∃ e, readMemory w p address length nread
            = (e, data, store_out nread bytesRead, w1)
       ∧ (result = true → e = kSuccess)
       ∧ (result = false → GetLastError w1 = ERROR_PARTIAL_COPY → bytesRead ≠ 0 →
          e = kSuccess)
       ∧ (result = false → GetLastError w1 ≠ ERROR_PARTIAL_COPY ∨ bytesRead = 0 →
          e = Platform_TranslateError (GetLastError w1))
       ∧ (e ≠ kSuccess →
          result = false ∧ (GetLastError w1 ≠ ERROR_PARTIAL_COPY ∨ bytesRead = 0)))
  ∧ (∀ data nwritten result bytesWritten w1,
     WriteProcessMemory w (_handle p) address data length = (result, bytesWritten, w1) →
     ∃ e, writeMemory w p address data length nwritten
            = (e, store_out nwritten bytesWritten, w1)
       ∧ (result = true → e = kSuccess)
       ∧ (result = false → GetLastError w1 = ERROR_PARTIAL_COPY → bytesWritten ≠ 0 →
          e = kSuccess)
       ∧ (result = false → GetLastError w1 ≠ ERROR_PARTIAL_COPY ∨ bytesWritten = 0 →
          e = Platform_TranslateError (GetLastError w1))
       ∧ (e ≠ kSuccess →
          result = false ∧ (GetLastError w1 ≠ ERROR_PARTIAL_COPY ∨ bytesWritten = 0))).
Proof.
  split.
  - intros nread result data n w1 Hn. unfold readMemory. rewrite Hn.
    destruct result; cbn [negb].
    + eexists. split; [reflexivity|]. repeat split; intros; congruence.
    + destruct (Z.eqb_spec (GetLastError w1) ERROR_PARTIAL_COPY) as [He|He];
        destruct (Z.eqb_spec n 0) as [Hz|Hz]; cbn [negb orb];
        (eexists; split; [reflexivity|]); repeat split; intros; auto;
        try congruence; try tauto.
  - intros data nwritten result n w1 Hn. unfold writeMemory. rewrite Hn.
    destruct result; cbn [negb].
    + eexists. split; [reflexivity|]. repeat split; intros; congruence.
    + destruct (Z.eqb_spec (GetLastError w1) ERROR_PARTIAL_COPY) as [He|He];
        destruct (Z.eqb_spec n 0) as [Hz|Hz]; cbn [negb orb];
        (eexists; split; [reflexivity|]); repeat split; intros; auto;
        try congruence; try tauto.
Qed.

(** *** readString *)





(** [readString] never writes through [nread]: the cell behind the
    pointer holds after the call what it held before. *)
Lemma readString_nread w p address str length nread :
  (readString w p address str length nread).1.2 = nread.
Proof.
  unfold readString.
  destruct (readString_loop _ _ _ _ _ _) as [[e s'] w']. reflexivity.
Qed.

(** *** updateInfo *)

(** C8.  When the cached pid already equals the pid of the process,
    [updateInfo] returns AlreadyExist and changes nothing.  Otherwise it
    returns Success, having recomputed the cached attributes from the pid
    and the platform, and nothing but the cache changes.  Either way a
    second call right after is the no-op. *)
Theorem updateInfo_cached p :
  (info_pid (_info p) = _pid p → updateInfo p = (kErrorAlreadyExist, p))
  ∧ (info_pid (_info p) ≠ _pid p →
     ∃ p', updateInfo p = (kSuccess, p')
       ∧ info_pid (_info p') = _pid p
       ∧ cpuType (_info p') = Platform_GetCPUType
       ∧ cpuSubType (_info p') = Platform_GetCPUSubType
       ∧ nativeCPUType (_info p') = Platform_GetCPUType
       ∧ nativeCPUSubType (_info p') = Platform_GetCPUSubType
       ∧ endian (_info p') = kEndianLittle
       ∧ pointerSize (_info p') = Platform_GetPointerSize
       ∧ osType (_info p') = Platform_GetOSTypeName
       ∧ osVendor (_info p') = Platform_GetOSVendorName
       ∧ realUid (_info p') = 0 ∧ realGid (_info p') = 0 ∧ archFlags (_info p') = 0
       ∧ p' = set_info (_info p') p)
  ∧ (∀ e p', updateInfo p = (e, p') → updateInfo p' = (kErrorAlreadyExist, p')).
Proof.
  unfold updateInfo. split; [|split].
  - intros Heq. apply Z.eqb_eq in Heq. now rewrite Heq.
  - intros Hne. apply Z.eqb_neq in Hne. rewrite Hne.
    eexists. split; [reflexivity|]. simpl. repeat split.
  - intros e p'. destruct (Z.eqb_spec (info_pid (_info p)) (_pid p)) as [Heq|Hne].
    + intros [= <- <-]. apply Z.eqb_eq in Heq. now rewrite Heq.
    + intros [= <- <-]. simpl. now rewrite Z.eqb_refl.
Qed.

(** *** deallocateMemory *)

(** C10.  [deallocateMemory] does not look at [size]: whatever the two
    sizes, the result and the world after the call are the same, those of
    the native release of the region based at [address], asked for with
    size 0 and MEM_RELEASE. *)
Theorem deallocateMemory_ignores_size w p address size1 size2 :
  deallocateMemory w p address size1 = deallocateMemory w p address size2
  ∧ deallocateMemory w p address size1 =
      (if (VirtualFreeEx w (_handle p) address 0 MEM_RELEASE).1
       then kSuccess
       else TranslateError (VirtualFreeEx w (_handle p) address 0 MEM_RELEASE).2,
       (VirtualFreeEx w (_handle p) address 0 MEM_RELEASE).2).
Proof.
  unfold deallocateMemory.
  destruct (VirtualFreeEx w (_handle p) address 0 MEM_RELEASE) as [[] w'];
    split; reflexivity.
Qed.

(** *** enumerateSharedLibraries *)

Lemma slashes_no_backslash path : backslash ∉ slashes path.
Proof.
  unfold slashes. intros Hin. apply list_elem_of_fmap in Hin as (c & Hc & _).
  destruct (Ascii.eqb c backslash) eqn:E.
  - discriminate Hc.
  - apply Ascii.eqb_neq in E. congruence.
Qed.

Lemma unix_path_no_backslash path : backslash ∉ unix_path path.
Proof. apply slashes_no_backslash. Qed.

Lemma visited_as_descriptor first m nameStr :
  visited_as first m (descriptor first m nameStr).
Proof. repeat split. apply unix_path_no_backslash. Qed.



End Properties.

(** ** The model at work on the scripted host *)

Lemma pendingEvent_transitions_witness :
  PendingEvent_set (H := script_host) script0 PendingEvent_init (thread0 11)
  = Some ({| _valid := true; pe_tid := 11 |},
          Thread_set_state kSuspended (thread0 11), script0).
Proof.
  exact (proj1 (@pendingEvent_transitions script_host)
           script0 PendingEvent_init (thread0 11) kSuccess _ _ eq_refl eq_refl).
Defined.

(** C5, counterexample.  The thread 11 runs and the host refuses to
    suspend it: [suspend()] returns an error and the thread runs on.
    [set] drops that result, so the event is valid, with 11 as its owner,
    while the thread is not held suspended. *)
Lemma pendingEvent_transitions_counterexample :
  Thread_suspend (Host := script_host_no_suspend) script0 (thread_running 11)
  = (kErrorUnknown, thread_running 11, script0)
  ∧ PendingEvent_set (H := script_host_no_suspend) script0 PendingEvent_init
      (thread_running 11)
    = Some ({| _valid := true; pe_tid := 11 |}, thread_running 11, script0)
  ∧ _state (thread_running 11) = kRunning
  ∧ ¬ (∀ w pe t pe' t' w',
         PendingEvent_set (H := script_host_no_suspend) w pe t = Some (pe', t', w') →
         _valid pe' = true ∧ _state t' = kSuspended).
Proof.
  split; [reflexivity|]. split; [reflexivity|]. split; [reflexivity|].
  intros Hall.
  destruct (Hall script0 PendingEvent_init (thread_running 11) _ _ _ eq_refl) as [_ Hs].
  discriminate Hs.
Qed.

(** C1, counterexample.  The debuggee is stopped with one thread; a
    [wait] fails in [WaitForDebugEvent], which leaves the cached current
    thread null; [terminate] then succeeds and sets the terminated flag; the
    next [wait] fails the assertion on the current thread instead of
    returning Success. *)
Lemma wait_terminated_counterexample :
  wait (H := script_host) 1 script_wait_fails process0
    = Returned (H := script_host) kErrorUnknown process_after_failed_wait script_after_failed_wait
  ∧ terminate (H := script_host) script_after_failed_wait process_after_failed_wait
    = (kSuccess, process_terminated_null, script_after_failed_wait)
  ∧ _terminated process_terminated_null = true
  ∧ wait (H := script_host) 1 script_after_failed_wait process_terminated_null
    = AssertionFailure
  ∧ ¬ (∃ p', wait (H := script_host) 1 script_after_failed_wait process_terminated_null
             = Returned (H := script_host) kSuccess p' script_after_failed_wait).
Proof.
  repeat split; try reflexivity.
  intros [p' Hp]. discriminate Hp.
Qed.

Lemma wait_terminated_witness :
  ∃ p', wait (H := script_host) 0 script0 (set_terminated true process0)
        = Returned (H := script_host) kSuccess p' script0
    ∧ ∃ t', _threads p' !! 11 = Some t' ∧ event (_stopInfo t') = kEventKill.
Proof.
  destruct (@wait_terminated script_host 0 script0 (set_terminated true process0) 11
              eq_refl eq_refl) as (p' & Hw & _ & Hk & _).
  exists p'. split; [exact Hw|].
  destruct (Hk (thread0 11) eq_refl) as (t' & Ht & He & _).
  exists t'. split; [exact Ht | exact He].
Defined.

Lemma wait_exit_process_one_thread_witness :
  size (_threads process0) = 1%nat
  ∧ ∃ t, _threads process0 = {[ 11 := t ]}.
Proof.
  destruct (@wait_exit_process_one_thread script_host 3 script_exit process0
              (debug_event EXIT_PROCESS_DEBUG_EVENT 11) script_exit process0
              eq_refl
              (harvests_now (H := script_host) script_exit process0
                 (debug_event EXIT_PROCESS_DEBUG_EVENT 11) _ eq_refl)
              eq_refl) as [Hret _].
  destruct (Hret _ _ _ eq_refl) as (Hsize & t & _ & Ht & _).
  split; [exact Hsize|]. exists t. exact Ht.
Defined.

(** A run of the loop: thread 12 exits, then the process; the first event
    is absorbed and the call returns on the second. *)
Example wait_absorbs_thread_exit :
  ∃ p' w',
    wait (H := script_host) 5
      (sc_with_events [Some (debug_event EXIT_THREAD_DEBUG_EVENT 12);
                       Some (debug_event EXIT_PROCESS_DEBUG_EVENT 11)] 0 script0)
      (set_threads (<[12 := thread0 12]> (_threads process0)) process0)
    = Returned (H := script_host) kSuccess p' w'
    ∧ _currentThread p' = Some 11
    ∧ (event ∘ _stopInfo) <$> _threads p' !! 11 = Some kEventExit
    ∧ _threads p' !! 12 = None
    ∧ isAlive p' = false.
Proof. eexists _, _. split; [reflexivity|]. repeat split. Qed.

(** With two Threads still registered the process-exited event is an
    assertion failure. *)
Example wait_exit_two_threads :
  wait (H := script_host) 5 script_exit
    (set_threads (<[12 := thread0 12]> (_threads process0)) process0)
  = AssertionFailure.
Proof. reflexivity. Qed.

(** C3, counterexample.  The native read moves two bytes and then fails
    with access denied: [readMemory] returns a failure although the count
    of bytes transferred, reported through [nread], is not zero. *)
Lemma memory_transfer_counterexample :
  readMemory (H := script_host) script_denied process0 0 2 (Some 0)
  = (kErrorAccessDenied, list_ascii_of_string "ab", Some 2,
     sc_with_error ERROR_ACCESS_DENIED script_denied)
  ∧ kErrorAccessDenied ≠ kSuccess
  ∧ (2 ≠ 0)%Z.
Proof. repeat split; discriminate. Qed.

Lemma memory_transfer_result_witness :
  ∃ e, readMemory (H := script_host) script_ab process0 3 5 (Some 77)
       = (e, list_ascii_of_string "cd", Some 2, sc_with_error ERROR_PARTIAL_COPY script_ab)
    ∧ e = kSuccess.
Proof.
  destruct (proj1 (@memory_transfer_result script_host script_ab process0 3 5)
              (Some 77) false (list_ascii_of_string "cd") 2
              (sc_with_error ERROR_PARTIAL_COPY script_ab) eq_refl)
    as (e & Hr & _ & Hpartial & _).
  exists e. split; [exact Hr|]. apply Hpartial; [reflexivity|reflexivity|discriminate].
Defined.

(** C4, counterexample.  The resume of the new thread fails: [wait]
    returns from the pass that received the thread-created event, with the
    error of the resume; it has not gone back to the event source, where
    the next event is still waiting. *)
Lemma wait_thread_created_counterexample :
  wait (H := script_host) 5 (script_new_thread kErrorUnknown) process0
  = Returned (H := script_host) kErrorUnknown
      (process_new_thread thread12_created) (script_new_thread_next kErrorUnknown)
  ∧ sc_events (script_new_thread_next kErrorUnknown)
    = [Some (debug_event EXCEPTION_DEBUG_EVENT 11)].
Proof. split; reflexivity. Qed.

Lemma wait_thread_created_witness :
  ∃ p', _threads p' !! 12 = Some (Thread_set_state kRunning thread12_created)
    ∧ wait (H := script_host) 5 (script_new_thread kSuccess) process0
      = wait (H := script_host) 4 (script_new_thread_next kSuccess) p'.
Proof.
  destruct (@wait_thread_created script_host 4 (script_new_thread kSuccess) process0
              (debug_event CREATE_THREAD_DEBUG_EVENT 12)
              (script_new_thread_next kSuccess) kSuccess
              (Thread_set_state kRunning thread12_created)
              (script_new_thread_next kSuccess)
              eq_refl eq_refl eq_refl eq_refl)
    as (p' & Hth & _ & _ & _ & Hok & _).
  exists p'. split; [rewrite Hth; apply lookup_insert_eq | exact (Hok eq_refl)].
Defined.

(** With a successful resume the same call absorbs the thread-created
    event and returns on the exception that follows it. *)
Example wait_absorbs_thread_created :
  ∃ p' w',
    wait (H := script_host) 5 (script_new_thread kSuccess) process0
    = Returned (H := script_host) kSuccess p' w'
    ∧ _currentThread p' = Some 11
    ∧ _pendingEvent p' = {| _valid := true; pe_tid := 11 |}
    ∧ _state <$> _threads p' !! 12 = Some kSuspended
    ∧ sc_events w' = [].
Proof. eexists _, _. split; [reflexivity|]. repeat split. Qed.


(** C7.  [readString] never stores anything through [nread]; on the
    memory [a b NUL c d], asked for 5 bytes at address 0 with [nread]
    pointing to a cell that holds 77, it returns Success with the string
    [ab] and the cell still holds 77, neither the two characters delivered
    nor the three bytes read. *)
Theorem readString_leaves_nread :
  (∀ (H : Host) w p address str length nread,
     (readString w p address str length nread).1.2 = nread)
  ∧ readString (H := script_host) script_ab process0 0 [] 5 (Some 77)
    = (kSuccess, list_ascii_of_string "ab", Some 77, script_ab)
  ∧ (readMemory (H := script_host) script_ab process0 0 5 (Some 77)).1.2 = Some 5.
Proof.
  split; [|split; reflexivity].
  intros H w p address str length nread. apply readString_nread.
Qed.

Lemma updateInfo_cached_witness :
  ∃ p', updateInfo (H := script_host) process0 = (kSuccess, p')
    ∧ info_pid (_info p') = 4242
    ∧ updateInfo (H := script_host) p' = (kErrorAlreadyExist, p').
Proof.
  destruct (@updateInfo_cached script_host process0) as (_ & Hnew & Hagain).
  destruct (Hnew ltac:(discriminate)) as (p' & Hp & Hpid & _).
  exists p'. split; [exact Hp|]. split; [exact Hpid|]. exact (Hagain _ _ Hp).
Defined.




(** A name of 259 characters fits [nameStr] with the null that ends it.
    With a name of 260 characters, the size of the array, the query writes
    the null past the end of the array. *)
Example enumerateSharedLibraries_long_name :
  (∃ seen w',
     enumerateSharedLibraries (H := script_host) record_visit (script_long_name 259)
       process0 [] = Some (kSuccess, seen, w')
     ∧ map (λ sl, List.length (path sl)) seen = [259; 14]%nat)
  ∧ enumerateSharedLibraries (H := script_host) record_visit (script_long_name 260)
      process0 [] = None.
Proof.
  split; [|vm_compute; reflexivity].
  eexists _, _. split; vm_compute; reflexivity.
Qed.

(** The first wait of a session: the process-created event fills in the
    handle, registers the main thread and marks its event pending. *)
Example wait_create_process :
  ∃ p' w',
    wait (H := script_host) 1
      (sc_with_events
         [Some {| dwDebugEventCode := CREATE_PROCESS_DEBUG_EVENT; dwThreadId := 1005;
                  CreateProcessInfo_hFile := 3; CreateProcessInfo_hProcess := 77;
                  CreateProcessInfo_hThread := 5; CreateThread_hThread := 0 |}] 0 script0)
      {| _pid := 0; _flags := 0; _handle := NULL; _pendingEvent := PendingEvent_init;
         _threads := ∅; _currentThread := None; _terminated := false; _info := info0 |}
    = Returned (H := script_host) kSuccess p' w'
    ∧ _handle p' = 77
    ∧ _currentThread p' = Some 1005
    ∧ _pendingEvent p' = {| _valid := true; pe_tid := 1005 |}
    ∧ size (_threads p') = 1%nat.
Proof. eexists _, _. split; [reflexivity|]. repeat split. Qed.

(** An event code outside the switch is a [DS2BUG]; a native wait that
    has no event to deliver never returns. *)
Example wait_unknown_event_and_no_event :
  wait (H := script_host) 1
    (sc_with_events [Some (debug_event RIP_EVENT 11)] 0 script0) process0
  = AssertionFailure
  ∧ wait (H := script_host) 1 script0 process0 = Blocks.
Proof. split; reflexivity. Qed.

(** ** More properties of wait() *)

Section WaitProperties.
Context {H : Host}.

Lemma pendingEvent_set_current_fields w k t p p' w' :
  pendingEvent_set_current w k t p = Some (p', w') →
  _pid p' = _pid p ∧ _flags p' = _flags p ∧ _info p' = _info p
  ∧ _valid (_pendingEvent p) = false ∧ _valid (_pendingEvent p') = true
  ∧ pe_tid (_pendingEvent p') = tid t
  ∧ _currentThread p' = _currentThread p
  ∧ _terminated p' = _terminated p
  ∧ _handle p' = _handle p.
Proof.
  unfold pendingEvent_set_current, PendingEvent_set.
  destruct (_valid (_pendingEvent p)); [discriminate|].
  destruct (Thread_suspend w t) as [[e t'] w''].
  intros [= <- <-]. simpl. repeat split.
Qed.

Ltac break_match :=
  match goal with
  | |- context [match ?x with _ => _ end] => destruct x eqn:?
  end.

Ltac use_set_current :=
  repeat match goal with
  | Hs : pendingEvent_set_current _ _ _ _ = Some _ |- _ =>
      apply pendingEvent_set_current_fields in Hs;
      destruct Hs as (? & ? & ? & ? & ? & ? & ? & ? & ?)
  end.

(** A pass that goes round again leaves the identity, the pending event,
    the terminated flag and the handle alone. *)
Lemma wait_iteration_inl w p p' w' :
  wait_iteration w p = inl (p', w') →
  same_identity p p'
  ∧ _pendingEvent p' = _pendingEvent p
  ∧ _terminated p' = _terminated p
  ∧ _handle p' = _handle p.
Proof.
  unfold wait_iteration, same_identity.
  repeat break_match; try discriminate; intros [= <- <-]; simpl; auto.
Qed.

(** A pass that returns. *)
Lemma wait_iteration_returned w p e p' w' :
  wait_iteration w p = inr (Returned e p' w') →
  same_identity p p'
  ∧ (_terminated p = true → _terminated p' = true)
  ∧ (_handle p' = _handle p ∨ (_handle p = NULL ∧ _handle p' ≠ NULL))
  ∧ (_currentThread p' ≠ None →
       e = kSuccess →
       _valid (_pendingEvent p) = false ∧ _valid (_pendingEvent p') = true)
  ∧ (_currentThread p' = None →
       WaitForDebugEvent w = Some (None, w')
       ∧ e = TranslateError w' ∧ _pendingEvent p' = _pendingEvent p
       ∧ _threads p' = _threads p ∧ _terminated p' = _terminated p
       ∧ _handle p' = _handle p).
Proof.
  unfold wait_iteration, same_identity.
  repeat break_match; try discriminate; intros [= <- <- <-];
    use_set_current; simpl in *.
  all: repeat split; auto; try discriminate; try congruence.
  all: try (right; split;
            [ now apply negb_false_iff, Z.eqb_eq in Heqb0
            | apply Z.eqb_neq in Heqb1; congruence ]).
Qed.

Lemma wait_loop_returned fuel : ∀ w p e p' w',
  wait_loop fuel w p = Returned e p' w' →
  same_identity p p'
  ∧ (_terminated p = true → _terminated p' = true)
  ∧ (_handle p' = _handle p ∨ (_handle p = NULL ∧ _handle p' ≠ NULL))
  ∧ (_currentThread p' ≠ None →
       e = kSuccess →
       _valid (_pendingEvent p) = false ∧ _valid (_pendingEvent p') = true)
  ∧ (_currentThread p' = None →
       (∃ wk, WaitForDebugEvent wk = Some (None, w'))
       ∧ e = TranslateError w' ∧ _pendingEvent p' = _pendingEvent p
       ∧ _terminated p' = _terminated p ∧ _handle p' = _handle p).
Proof.
  induction fuel as [|fuel IH]; intros w p e p' w'; [discriminate|].
  cbn [wait_loop]. destruct (wait_iteration w p) as [[p1 w1]|out] eqn:Hi.
  - intros Hl. apply wait_iteration_inl in Hi as ((Hpid & Hfl & Hinf) & Hpe & Hterm & Hh).
    destruct (IH _ _ _ _ _ Hl) as ((Hpid' & Hfl' & Hinf') & Ht & Hhd & Hs & Hn).
    unfold same_identity. rewrite <- Hpid, <- Hfl, <- Hinf, <- Hpe, <- Hterm, <- Hh.
    repeat split; auto; try (apply Hs; auto); apply Hn; auto.
  - intros ->. apply wait_iteration_returned in Hi
      as (Hid & Ht & Hh & Hs & Hn).
    repeat split; auto; try apply Hid; try (apply Hs; auto);
      try (apply Hn; auto). exists w. apply Hn; auto.
Qed.

(** X1.  Whatever [wait] returns, it has not touched the pid, the flags
    or the cached info of the process; it has not cleared the terminated
    flag; and it has left the native handle alone unless the handle was
    null, in which case the only other value it can hold afterwards is a
    non-null handle (the one a process-created event carries). *)
Theorem wait_keeps_identity fuel w p e p' w' :
  wait fuel w p = Returned e p' w' →
  same_identity p p'
  ∧ (_terminated p = true → _terminated p' = true)
  ∧ (isAlive p = false → isAlive p' = false)
  ∧ (_handle p' = _handle p ∨ (_handle p = NULL ∧ _handle p' ≠ NULL)).
Proof.
  unfold wait, isAlive. destruct (_terminated p) eqn:Ht.
  - destruct (_currentThread p); [|discriminate].
    intros [= <- <- <-]. unfold same_identity; simpl. rewrite Ht. auto 10.
  - intros Hl. apply wait_loop_returned in Hl as (Hid & _ & Hh & _).
    repeat split; try apply Hid; auto; discriminate.
Qed.

(** X2.  A [wait] on a live process that returns Success with a current
    thread has marked a pending event, and the pending event was not valid
    when the call was made: a caller that has not had the previous pending
    event reset cannot get a stop out of [wait]. *)
Theorem wait_success_marks_pending fuel w p p' w' :
  _terminated p = false →
  wait fuel w p = Returned kSuccess p' w' →
  _currentThread p' ≠ None →
  _valid (_pendingEvent p) = false ∧ _valid (_pendingEvent p') = true.
Proof.
  intros Ht Hw Hc. unfold wait in Hw. rewrite Ht in Hw.
  apply wait_loop_returned in Hw as (_ & _ & _ & Hs & _). auto.
Qed.

(** X3.  A [wait] on a live process returns with a null current thread
    only from a failed native wait: the world it returns is the one a
    failed [WaitForDebugEvent] left, the result is the translation of the
    native error, and the pending event, the terminated flag and the handle
    are as they were. *)
Theorem wait_null_current_thread fuel w p e p' w' :
  _terminated p = false →
  wait fuel w p = Returned e p' w' →
  _currentThread p' = None →
  (∃ wk, WaitForDebugEvent wk = Some (None, w'))
  ∧ e = TranslateError w'
  ∧ _pendingEvent p' = _pendingEvent p
  ∧ _terminated p' = false
  ∧ _handle p' = _handle p.
Proof.
  intros Ht Hw Hc. unfold wait in Hw. rewrite Ht in Hw.
  apply wait_loop_returned in Hw as (_ & _ & _ & _ & Hn).
  destruct (Hn Hc) as (Hf & He & Hp & Hterm & Hh). rewrite <- Ht. auto.
Qed.

End WaitProperties.

(** ** The cases of the switch of wait() *)

Section WaitCases.
Context {H : Host}.

Ltac settle_switch Hcode :=
  unfold wait_iteration; rewrite Hcode;
  repeat match goal with
  | |- context [Z.eqb ?a ?b] =>
      first [ change (Z.eqb a b) with true | change (Z.eqb a b) with false ]
  end;
  cbv iota.

Lemma wait_live_step fuel w p :
  _terminated p = false →
  wait (S fuel) w p =
    match wait_iteration w p with
    | inl (p', w') => wait_loop fuel w' p'
    | inr out => out
    end.
Proof. intros Ht. unfold wait. now rewrite Ht. Qed.

(** X4.  A thread-exited event on a live process.  If no Thread is
    registered under the id of the event, [wait] fails its assertion.
    Otherwise the Thread has its state updated from the event and is
    resumed; if the resume fails [wait] returns that error with the Thread
    still registered (and current); if it succeeds the Thread is dropped
    from the thread set and the call goes on as a wait from the new state,
    no event having been marked pending. *)
Theorem wait_thread_exited fuel w p de w1 :
  _terminated p = false →
  WaitForDebugEvent w = Some (Some de, w1) →
  dwDebugEventCode de = EXIT_THREAD_DEBUG_EVENT →
  (_threads p !! dwThreadId de = None → wait (S fuel) w p = AssertionFailure)
  ∧ (∀ t t1 w2 error t2 w3,
       _threads p !! dwThreadId de = Some t →
       Thread_updateState w1 t de = (t1, w2) →
       Thread_resume w2 t1 = (error, t2, w3) →
       (error = kSuccess →
          ∃ p', wait (S fuel) w p = wait fuel w3 p'
            ∧ _threads p' = delete (tid t2) (<[dwThreadId de := t2]> (_threads p))
            ∧ _pendingEvent p' = _pendingEvent p
            ∧ (tid t2 = dwThreadId de →
                 _threads p' = delete (dwThreadId de) (_threads p)
                 ∧ S (size (_threads p')) = size (_threads p)))
       ∧ (error ≠ kSuccess →
          ∃ p', wait (S fuel) w p = Returned error p' w3
            ∧ _threads p' = <[dwThreadId de := t2]> (_threads p)
            ∧ _currentThread p' = Some (dwThreadId de)
            ∧ _pendingEvent p' = _pendingEvent p)).
Proof.
  intros Ht Hw Hc. rewrite (wait_live_step _ _ _ Ht).
  unfold wait_iteration. rewrite Hw. settle_switch Hc.
  unfold findThread. change (_threads (set_currentThread None p)) with (_threads p).
  split.
  - intros ->. reflexivity.
  - intros t t1 w2 error t2 w3 Hl Hu Hr. rewrite Hl, Hu, Hr. split.
    + intros ->.
      exists (removeThread (tid t2)
                (set_threads (<[dwThreadId de := t2]> (_threads p))
                   (set_currentThread (Some (dwThreadId de))
                      (set_currentThread None p)))).
      split; [unfold wait; simpl; rewrite Ht; reflexivity|].
      simpl. split; [reflexivity|]. split; [reflexivity|].
      intros ->. rewrite delete_insert_eq. split; [reflexivity|].
      rewrite map_size_delete_Some by eauto.
      assert (size (_threads p) ≠ 0%nat).
      { apply map_size_non_empty_iff. intros He. rewrite He, lookup_empty in Hl.
        discriminate. }
      lia.
    + intros Hne. eexists. split.
      { destruct error; [congruence|reflexivity..]. }
      simpl. auto.
Qed.

Lemma stop_event_code_cases code :
  stop_event_code code = true →
  code = EXCEPTION_DEBUG_EVENT ∨ code = LOAD_DLL_DEBUG_EVENT
  ∨ code = UNLOAD_DLL_DEBUG_EVENT ∨ code = OUTPUT_DEBUG_STRING_EVENT.
Proof.
  unfold stop_event_code. rewrite !orb_true_iff, !Z.eqb_eq. tauto.
Qed.

(** X5.  An exception, module-load, module-unload or debug-string event
    on a live process.  If no Thread is registered under the id of the
    event, or if a pending event is still valid, [wait] fails an assertion.
    Otherwise the Thread is updated from the event, marked pending and
    suspended, the whole process is suspended, and [wait] returns what the
    suspension of the process returned: the result of suspending the
    Thread itself is dropped.  The reporting Thread is the current one. *)
Theorem wait_stop_event fuel w p de w1 :
  _terminated p = false →
  WaitForDebugEvent w = Some (Some de, w1) →
  stop_event_code (dwDebugEventCode de) = true →
  (_threads p !! dwThreadId de = None → wait (S fuel) w p = AssertionFailure)
  ∧ (∀ t, _threads p !! dwThreadId de = Some t →
       _valid (_pendingEvent p) = true → wait (S fuel) w p = AssertionFailure)
  ∧ (∀ t t1 w2 e1 t2 w3 e2 ts w4,
       _threads p !! dwThreadId de = Some t →
       _valid (_pendingEvent p) = false →
       Thread_updateState w1 t de = (t1, w2) →
       Thread_suspend w2 t1 = (e1, t2, w3) →
       ProcessBase_suspend w3 (<[dwThreadId de := t2]> (_threads p)) = (e2, ts, w4) →
       ∃ p', wait (S fuel) w p = Returned e2 p' w4
         ∧ _threads p' = ts
         ∧ _currentThread p' = Some (dwThreadId de)
         ∧ _pendingEvent p' = {| _valid := true; pe_tid := tid t1 |}
         ∧ _terminated p' = false).
Proof.
  intros Ht Hw Hs. rewrite (wait_live_step _ _ _ Ht).
  assert (Hi : wait_iteration w p =
    match _threads p !! dwThreadId de with
    | None => inr AssertionFailure
    | Some t =>
        let '(t1, w2) := Thread_updateState w1 t de in
        match pendingEvent_set_current w2 (dwThreadId de) t1
                (set_currentThread (Some (dwThreadId de)) (set_currentThread None p)) with
        | None => inr AssertionFailure
        | Some (p1, w3) =>
            let '(e2, ts, w4) := ProcessBase_suspend w3 (_threads p1) in
            inr (Returned e2 (set_threads ts p1) w4)
        end
    end).
  { unfold wait_iteration. rewrite Hw.
    destruct (stop_event_code_cases _ Hs) as [Hc|[Hc|[Hc|Hc]]]; settle_switch Hc;
      unfold findThread; change (_threads (set_currentThread None p)) with (_threads p);
      destruct (_threads p !! dwThreadId de); try reflexivity;
      destruct (Thread_updateState w1 t de) as [t1 w2];
      destruct (pendingEvent_set_current _ _ _ _) as [[p1 w3]|]; try reflexivity;
      destruct (ProcessBase_suspend w3 (_threads p1)) as [[e2 ts] w4];
      destruct e2; reflexivity. }
  rewrite Hi. clear Hi. split; [|split].
  - intros ->. reflexivity.
  - intros t -> Hv. destruct (Thread_updateState w1 t de) as [t1 w2].
    unfold pendingEvent_set_current, PendingEvent_set. simpl. rewrite Hv. reflexivity.
  - intros t t1 w2 e1 t2 w3 e2 ts w4 -> Hv Hu Hsus Hps. rewrite Hu.
    unfold pendingEvent_set_current, PendingEvent_set. simpl. rewrite Hv, Hsus.
    simpl. rewrite Hps. eexists. split; [reflexivity|]. simpl. auto.
Qed.

(** X6.  A process-created event on a live process.  [wait] fails an
    assertion if the process already has a handle, if the event carries a
    null process or thread handle, or if a pending event is still valid.
    Otherwise it returns Success with the handle of the event stored, the
    main Thread registered under the id the host gives for its handle,
    current and marked pending.  A further process-created event is then an
    assertion failure. *)
Theorem wait_process_created fuel w p de w1 :
  _terminated p = false →
  WaitForDebugEvent w = Some (Some de, w1) →
  dwDebugEventCode de = CREATE_PROCESS_DEBUG_EVENT →
  (_handle p ≠ NULL ∨ CreateProcessInfo_hProcess de = NULL
   ∨ CreateProcessInfo_hThread de = NULL ∨ _valid (_pendingEvent p) = true →
   wait (S fuel) w p = AssertionFailure)
  ∧ (_handle p = NULL → CreateProcessInfo_hProcess de ≠ NULL →
     CreateProcessInfo_hThread de ≠ NULL → _valid (_pendingEvent p) = false →
     ∃ p' w' k t,
       wait (S fuel) w p = Returned kSuccess p' w'
       ∧ _handle p' = CreateProcessInfo_hProcess de
       ∧ _currentThread p' = Some k
       ∧ _pendingEvent p' = {| _valid := true; pe_tid := k |}
       ∧ _threads p' = <[k := t]> (_threads p)
       ∧ _terminated p' = false
       ∧ (∀ fuel2 de2 w2,
            WaitForDebugEvent w' = Some (Some de2, w2) →
            dwDebugEventCode de2 = CREATE_PROCESS_DEBUG_EVENT →
            wait (S fuel2) w' p' = AssertionFailure)).
Proof.
  intros Ht Hw Hc. rewrite (wait_live_step _ _ _ Ht).
  unfold wait_iteration. rewrite Hw. settle_switch Hc.
  change (_handle (set_currentThread None p)) with (_handle p).
  split.
  - intros Hbad.
    destruct (Z.eqb_spec (_handle p) NULL) as [Hh|Hh]; [|reflexivity]. cbn [negb].
    destruct (Z.eqb_spec (CreateProcessInfo_hProcess de) NULL) as [Hp|Hp]; [reflexivity|].
    destruct (Z.eqb_spec (CreateProcessInfo_hThread de) NULL) as [Hth|Hth]; [reflexivity|].
    destruct Hbad as [?|[?|[?|Hv]]]; try contradiction.
    unfold pendingEvent_set_current, PendingEvent_set. simpl. rewrite Hv. reflexivity.
  - intros Hh Hp Hth Hv.
    apply Z.eqb_eq in Hh. rewrite Hh. cbn [negb].
    pose proof Hp as Hp'. apply Z.eqb_neq in Hp'. rewrite Hp'.
    apply Z.eqb_neq in Hth. rewrite Hth.
    unfold pendingEvent_set_current, PendingEvent_set. simpl. rewrite Hv.
    destruct (Thread_suspend _ _) as [[e1 t2] w3]. simpl.
    eexists _, _, _, t2. split; [reflexivity|]. simpl.
    split; [reflexivity|]. split; [reflexivity|]. split; [reflexivity|].
    split; [unfold Thread_ctor; simpl; now rewrite insert_insert_eq|].
    split; [exact Ht|].
    intros fuel2 de2 w2 Hw2 Hc2.
    unfold wait. simpl. rewrite Ht. cbn [wait_loop].
    unfold wait_iteration. rewrite Hw2. settle_switch Hc2. simpl.
    rewrite Hp'. reflexivity.
Qed.

Lemma known_event_code_false code :
  known_event_code code = false →
  code ≠ EXCEPTION_DEBUG_EVENT ∧ code ≠ CREATE_THREAD_DEBUG_EVENT
  ∧ code ≠ CREATE_PROCESS_DEBUG_EVENT ∧ code ≠ EXIT_THREAD_DEBUG_EVENT
  ∧ code ≠ EXIT_PROCESS_DEBUG_EVENT ∧ code ≠ LOAD_DLL_DEBUG_EVENT
  ∧ code ≠ UNLOAD_DLL_DEBUG_EVENT ∧ code ≠ OUTPUT_DEBUG_STRING_EVENT.
Proof.
  unfold known_event_code. rewrite !orb_false_iff, !Z.eqb_neq. tauto.
Qed.

(** X7.  An event whose code is none of the eight of the switch is a
    [DS2BUG]: a [wait] on a live process that comes to receive such an
    event never returns, whatever the state of the process. *)
Theorem wait_unknown_event_code w p de wk pk :
  _terminated p = false →
  harvests w p de wk pk →
  known_event_code (dwDebugEventCode de) = false →
  ∃ n, ∀ fuel, (n < fuel)%nat → wait fuel w p = AssertionFailure.
Proof.
  intros Ht Hh Hk.
  assert (Hwk : ∃ w1, WaitForDebugEvent wk = Some (Some de, w1)).
  { clear -Hh. induction Hh; eauto. }
  destruct Hwk as [w1 Hwk].
  assert (Hi : wait_iteration wk pk = inr AssertionFailure).
  { apply known_event_code_false in Hk as (H1 & H2 & H3 & H4 & H5 & H6 & H7 & H8).
    unfold wait_iteration. rewrite Hwk.
    apply Z.eqb_neq in H1, H2, H3, H4, H5, H6, H7, H8.
    cbv zeta. rewrite H1, H2, H3, H4, H5, H6, H7, H8. reflexivity. }
  destruct (harvests_wait_loop _ _ _ _ _ _ Hh Hi) as [n Hn].
  exists n. intros fuel Hlt. unfold wait. rewrite Ht, Hn.
  destruct (Nat.leb_spec fuel n); [lia|reflexivity].
Qed.

Lemma Thread_set_event_twice e t :
  Thread_set_event e (Thread_set_event e t) = Thread_set_event e t.
Proof. reflexivity. Qed.

(** X8.  Once a [wait] has returned from a process-exited event, the
    process is not alive and every further [wait] returns Success at once,
    in the same world: it rewrites the stop event of the one remaining
    Thread, the Exit just recorded included, to Kill, leaves its status and
    state alone, and from then on changes nothing. *)
Theorem wait_after_process_exit fuel fuel2 w p de w1 e p' w' :
  _terminated p = false →
  WaitForDebugEvent w = Some (Some de, w1) →
  dwDebugEventCode de = EXIT_PROCESS_DEBUG_EVENT →
  wait (S fuel) w p = Returned e p' w' →
  isAlive p' = false
  ∧ ∃ t' p'',
      _threads p' = {[ dwThreadId de := t' ]}
      ∧ wait fuel2 w' p' = Returned kSuccess p'' w'
      ∧ _threads p'' = {[ dwThreadId de := Thread_set_event kEventKill t' ]}
      ∧ status (_stopInfo (Thread_set_event kEventKill t')) = status (_stopInfo t')
      ∧ _state (Thread_set_event kEventKill t') = kTerminated
      ∧ wait fuel2 w' p'' = Returned kSuccess p'' w'.
Proof.
  intros Ht Hw Hc Hret. rewrite (wait_live_step _ _ _ Ht) in Hret.
  destruct (wait_iteration_exit_process w p de w1 Hw Hc)
    as (out & Hout & _ & _ & _ & _ & Hr).
  rewrite Hout in Hret. subst out.
  destruct (Hr _ _ _ eq_refl) as (t & t' & _ & Hts & Hst & Hcur & _ & Hterm).
  unfold isAlive. rewrite Hterm. split; [reflexivity|].
  exists t'. eexists. split; [exact Hts|].
  unfold wait at 1. rewrite Hterm, Hcur.
  split; [reflexivity|]. unfold update_thread at 1. cbn [_threads set_threads].
  rewrite Hts, alter_singleton_eq.
  split; [reflexivity|]. split; [reflexivity|]. split; [exact Hst|].
  unfold wait. simpl. rewrite Hterm, Hcur. f_equal.
  unfold update_thread. simpl. rewrite Hts, !alter_singleton_eq. reflexivity.
Qed.

End WaitCases.

(** ** Threads stay under their ids *)

Section Keyed.
Context {H : Host}.

Lemma keyed_insert ts k t :
  threads_keyed ts → tid t = k → threads_keyed (<[k := t]> ts).
Proof.
  intros Hk Ht k' t'. rewrite lookup_insert. case_decide.
  - intros [= <-]. congruence.
  - apply Hk.
Qed.

Lemma keyed_delete ts k : threads_keyed ts → threads_keyed (delete k ts).
Proof.
  intros Hk k' t'. rewrite lookup_delete. case_decide; [discriminate|apply Hk].
Qed.

Lemma keyed_alter ts k f :
  threads_keyed ts → (∀ t, tid (f t) = tid t) → threads_keyed (alter f k ts).
Proof.
  intros Hk Hf k' t'. rewrite lookup_alter. case_decide.
  - subst. destruct (ts !! k') as [t|] eqn:E; simpl; [|discriminate].
    intros [= <-]. rewrite Hf. now apply Hk.
  - apply Hk.
Qed.

Ltac break_match :=
  match goal with
  | |- context [match ?x with _ => _ end] => destruct x eqn:?
  end.

Ltac use_set_current_threads :=
  repeat match goal with
  | Hs : pendingEvent_set_current _ _ _ _ = Some _ |- _ =>
      apply pendingEvent_set_current_Some in Hs;
      destruct Hs as (_ & ? & ? & _ & ? & _ & _)
  end.

Lemma wait_iteration_keyed_inl w p p' w' :
  keeps_tid →
  threads_keyed (_threads p) →
  wait_iteration w p = inl (p', w') →
  threads_keyed (_threads p').
Proof.
  intros (Hsus & Hres & Hupd & Hps) Hk. unfold wait_iteration.
  repeat break_match; try discriminate; intros [= <- <-];
    unfold findThread in *; simpl in *.
  - match goal with Hr : Thread_resume ?w ?x = _ |- _ =>
      pose proof (Hres w x) as Htid; rewrite Hr in Htid; simpl in Htid end.
    apply keyed_insert; [apply keyed_insert; auto|exact Htid].
  - match goal with Hu : Thread_updateState ?w ?x ?d = _ |- _ =>
      pose proof (Hupd w x d) as Htid1; rewrite Hu in Htid1; simpl in Htid1 end.
    match goal with Hr : Thread_resume ?w ?x = _ |- _ =>
      pose proof (Hres w x) as Htid2; rewrite Hr in Htid2; simpl in Htid2 end.
    apply keyed_delete, keyed_insert; [exact Hk|].
    rewrite Htid2, Htid1. now apply Hk.
Qed.

Lemma wait_iteration_keyed_returned w p e p' w' :
  keeps_tid →
  threads_keyed (_threads p) →
  wait_iteration w p = inr (Returned e p' w') →
  threads_keyed (_threads p')
  ∧ (e = kSuccess → ∀ k, _currentThread p' = Some k → pe_tid (_pendingEvent p') = k).
Proof.
  intros (Hsus & Hres & Hupd & Hps) Hk. unfold wait_iteration.
  repeat break_match; try discriminate; intros [= <- <- <-];
    use_set_current_threads;
    unfold findThread, update_thread in *; simpl in *.
  all: repeat match goal with Hu : Thread_updateState ?w ?x ?d = _ |- _ =>
      let Htid := fresh "Htid" in
      pose proof (Hupd w x d) as Htid; rewrite Hu in Htid; simpl in Htid; clear Hu end.
  all: repeat match goal with Hr : Thread_resume ?w ?x = _ |- _ =>
      let Htid := fresh "Htid" in
      pose proof (Hres w x) as Htid; rewrite Hr in Htid; simpl in Htid; clear Hr end.
  all: repeat match goal with Hp : ProcessBase_suspend ?w ?x = _ |- _ =>
      let Hkk := fresh "Hkk" in
      pose proof (Hps w x) as Hkk; rewrite Hp in Hkk; simpl in Hkk; clear Hp end.
  all: repeat match goal with Hl : _threads _ !! ?k = Some ?t |- _ =>
      apply Hk in Hl end.
  all: repeat match goal with
       | Hth : _threads ?q = _ |- _ => rewrite Hth in *; clear Hth
       | Hpe : _pendingEvent ?q = _ |- _ => rewrite Hpe in *; clear Hpe
       | Hcu : _currentThread ?q = _ |- _ => rewrite Hcu in *; clear Hcu
       end.
  all: split;
    [ repeat first
        [ assumption
        | apply keyed_delete
        | apply keyed_alter; [|intros; reflexivity]
        | apply keyed_insert;
            [|first [reflexivity | congruence | rewrite Hsus; simpl; congruence]]
        | match goal with Hkk : threads_keyed _ → threads_keyed ?x |- threads_keyed ?x =>
            apply Hkk end ]
    | try discriminate; intros _ k' Hcur; simpl in *; try congruence ].
Qed.

Lemma wait_loop_keyed fuel : ∀ w p e p' w',
  keeps_tid →
  threads_keyed (_threads p) →
  wait_loop fuel w p = Returned e p' w' →
  threads_keyed (_threads p')
  ∧ (e = kSuccess → ∀ k, _currentThread p' = Some k → pe_tid (_pendingEvent p') = k).
Proof.
  induction fuel as [|fuel IH]; intros w p e p' w' Hlaws Hk; [discriminate|].
  cbn [wait_loop]. destruct (wait_iteration w p) as [[p1 w1]|out] eqn:Hi.
  - apply IH; [exact Hlaws|]. eapply wait_iteration_keyed_inl; eauto.
  - intros ->. eapply wait_iteration_keyed_returned; eauto.
Qed.

(** X9.  Provided the id of a Thread is fixed at construction (the
    methods of [Thread] and the inherited [suspend()] keep every Thread under
    its id), [wait] keeps the thread set keyed by thread id; and when a
    [wait] on a live process returns Success, the pending event names the
    current thread. *)
Theorem wait_keeps_threads_keyed fuel w p e p' w' :
  keeps_tid →
  threads_keyed (_threads p) →
  wait fuel w p = Returned e p' w' →
  threads_keyed (_threads p')
  ∧ (_terminated p = false → e = kSuccess →
     ∀ k, _currentThread p' = Some k → pe_tid (_pendingEvent p') = k).
Proof.
  intros Hlaws Hk. unfold wait. destruct (_terminated p).
  - destruct (_currentThread p); [|discriminate].
    intros [= <- <- <-]. split; [|discriminate].
    unfold update_thread; simpl. apply keyed_alter; [exact Hk|reflexivity].
  - intros Hl. destruct (wait_loop_keyed _ _ _ _ _ _ Hlaws Hk Hl) as [Hk' Hpe].
    split; [exact Hk'|]. intros _. exact Hpe.
Qed.

End Keyed.

(** ** More properties of readString, PendingEvent and the module list *)

Section MoreMemory.
Context {H : Host}.

Lemma readString_loop_appends n : ∀ i w p address str,
  ∃ cs, (readString_loop n i w p address str).1.2 = str ++ cs
    ∧ (NUL ∉ cs) ∧ (List.length cs ≤ n)%nat.
Proof.
  induction n as [|n IH]; intros i w p address str; cbn [readString_loop].
  - exists []. rewrite app_nil_r. repeat split; [apply not_elem_of_nil|simpl; lia].
  - destruct (read_char w p (Address_add address i)) as [[e c] w1].
    assert (Hstop : ∃ cs : list ascii, str = str ++ cs ∧ (NUL ∉ cs)
                      ∧ (List.length cs ≤ S n)%nat).
    { exists []. rewrite app_nil_r. repeat split; [apply not_elem_of_nil|simpl; lia]. }
    destruct e; try exact Hstop.
    destruct (Ascii.eqb_spec c NUL) as [->|Hc]; [exact Hstop|].
    destruct (IH (i + 1) w1 p address (str ++ [c])) as (cs & Hcs & Hnul & Hlen).
    exists (c :: cs). rewrite Hcs, <- app_assoc. split; [reflexivity|].
    split; [|simpl; lia].
    apply not_elem_of_cons. split; [congruence|exact Hnul].
Qed.

(** X10.  Whatever the reads do, [readString] only appends to [str]:
    what [str] held on entry is a prefix of what it holds on return, the
    appended characters do not include the terminator, and there are at
    most [length] of them. *)
Theorem readString_only_appends w p address str length nread :
  ∃ cs, (readString w p address str length nread).1.1.2 = str ++ cs
    ∧ (NUL ∉ cs) ∧ (List.length cs ≤ Z.to_nat length)%nat.
Proof.
  unfold readString.
  destruct (readString_loop_appends (Z.to_nat length) 0 w p address str)
    as (cs & Hcs & Hnul & Hlen).
  destruct (readString_loop _ _ _ _ _ _) as [[e s'] w']. simpl in *.
  exists cs. auto.
Qed.

Lemma readString_loop_failure cs : ∀ n i w p address str w1 e c w2,
  read_chars (List.length cs) i w p address = Some (cs, w1) →
  NUL ∉ cs →
  (List.length cs < n)%nat →
  read_char w1 p (Address_add address (i + Z.of_nat (List.length cs))) = (e, c, w2) →
  e ≠ kSuccess →
  readString_loop n i w p address str = (e, str ++ cs, w2).
Proof.
  induction cs as [|c0 cs IH]; intros n i w p address str w1 e c w2 Hr Hnul Hlt Hf He;
    (destruct n as [|n]; [simpl in Hlt; lia|]).
  - simpl in Hr. injection Hr as <-. simpl in Hf. rewrite Z.add_0_r in Hf.
    cbn [readString_loop]. rewrite Hf, app_nil_r. destruct e; congruence.
  - cbn [List.length read_chars] in Hr. cbn [readString_loop].
    destruct (read_char w p (Address_add address i)) as [[e0 c1] w0].
    destruct e0; try discriminate.
    destruct (read_chars (List.length cs) (i + 1) w0 p address) as [[cs1 w3]|] eqn:E;
      [|discriminate].
    injection Hr as -> -> ->.
    apply not_elem_of_cons in Hnul as [Hc Hcs].
    destruct (Ascii.eqb_spec c0 NUL) as [->|_]; [congruence|].
    rewrite (IH n (i + 1) w0 p address (str ++ [c0]) w1 e c w2 E Hcs).
    + now rewrite <- app_assoc.
    + simpl in Hlt. lia.
    + rewrite <- Hf. f_equal. f_equal. simpl List.length. lia.
    + exact He.
Qed.

(** X11.  When a one-byte read fails before any terminator was seen and
    within the bound, [readString] returns the error of that read at once,
    and [str] keeps the characters read until then. *)
Theorem readString_failed_read w p address str length nread cs w1 e c w2 :
  read_chars (List.length cs) 0 w p address = Some (cs, w1) →
  NUL ∉ cs →
  (List.length cs < Z.to_nat length)%nat →
  read_char w1 p (Address_add address (Z.of_nat (List.length cs))) = (e, c, w2) →
  e ≠ kSuccess →
  readString w p address str length nread = (e, str ++ cs, nread, w2).
Proof.
  intros Hr Hnul Hlt Hf He. unfold readString.
  now rewrite (readString_loop_failure cs _ 0 w p address str w1 e c w2 Hr Hnul Hlt Hf He).
Qed.

Lemma PendingEvent_run_last ops : ∀ w pe pe' w',
  PendingEvent_run w pe ops = Some (pe', w') →
  match last ops with
  | None => pe' = pe
  | Some (OpSet t) => pe' = {| _valid := true; pe_tid := tid t |}
  | Some OpReset => pe' = {| _valid := false; pe_tid := 0 |}
  end.
Proof.
  induction ops as [|op ops IH]; intros w pe pe' w'; simpl.
  - intros [= <- <-]. reflexivity.
  - destruct (PendingEvent_apply w pe op) as [[pe1 w1]|] eqn:E; [|discriminate].
    intros Hrun. specialize (IH _ _ _ _ Hrun).
    destruct ops as [|op2 ops].
    2:{ change (last (op :: op2 :: ops)) with (last (op2 :: ops)).
        destruct (last (op2 :: ops)) as [[t|]|] eqn:El; auto.
        apply last_None in El. discriminate. }
    simpl in *. subst pe'. destruct op as [t|]; simpl in E.
    + destruct (PendingEvent_set w pe t) as [[[pe2 t2] w2]|] eqn:Es; [|discriminate].
      injection E as <- <-. unfold PendingEvent_set in Es.
      destruct (_valid pe); [discriminate|].
      destruct (Thread_suspend w t) as [[e t'] w'']. now injection Es as <- _ _.
    + unfold PendingEvent_reset in E. destruct (_valid pe); [|discriminate].
      now injection E as <- _.
Qed.

Lemma PendingEvent_run_valid ops : ∀ w pe pe' w',
  PendingEvent_run w pe ops = Some (pe', w') →
  _valid pe' = xorb (_valid pe) (Nat.odd (List.length ops)).
Proof.
  induction ops as [|op ops IH]; intros w pe pe' w'; simpl.
  - intros [= <- <-]. now rewrite xorb_false_r.
  - destruct (PendingEvent_apply w pe op) as [[pe1 w1]|] eqn:E; [|discriminate].
    intros Hrun. rewrite (IH _ _ _ _ Hrun), (PendingEvent_apply_valid _ _ _ _ _ E).
    rewrite Nat.odd_succ, <- Nat.negb_odd.
    destruct (_valid pe), (Nat.odd (List.length ops)); reflexivity.
Qed.

(** X12.  After a sequence of [set] and [reset] that ran to its end from
    the initial state, the event depends on the last transition only: after
    a [set] it is valid and holds the id of the thread just set, after a
    [reset] (or no transition at all) it is the initial state again, not
    valid with id 0.  So [set] followed by [reset] is a round trip. *)
Theorem pendingEvent_run_final w ops pe w' :
  PendingEvent_run w PendingEvent_init ops = Some (pe, w') →
  pe = match last ops with
       | Some (OpSet t) => {| _valid := true; pe_tid := tid t |}
       | _ => PendingEvent_init
       end
  ∧ _valid pe = Nat.odd (List.length ops).
Proof.
  intros Hrun. split.
  - apply PendingEvent_run_last in Hrun. destruct (last ops) as [[t|]|]; exact Hrun.
  - rewrite (PendingEvent_run_valid _ _ _ _ _ Hrun). reflexivity.
Qed.

End MoreMemory.

(** ** More properties of the module enumeration *)

Section MoreModules.
Context {H : Host}.

Lemma module_names_length p ms :
  ∀ w names w', module_names ms w p = Some (names, w') →
  List.length names = List.length ms.
Proof.
  induction ms as [|m ms IH]; intros w names w'; simpl.
  - intros [= <- _]. reflexivity.
  - destruct (GetModuleFileNameExW w (_handle p) m (MAX_PATH * sizeof_WCHAR))
      as [nameStr w0].
    destruct ((List.length nameStr =? 0)%nat || negb (fits_nameStr nameStr));
      [discriminate|].
    destruct (module_names ms w0 p) as [[names0 w2]|] eqn:E; [|discriminate].
    intros [= <- _]. simpl. f_equal. eapply IH. exact E.
Qed.

Lemma visit_modules_named {V : Type} (cb : SharedLibraryInfo → V → V) first p pre rest :
  ∀ w v names w1,
  module_names pre w p = Some (names, w1) →
  visit_modules cb first (pre ++ rest) w p v
  = visit_modules cb first rest w1 p
      (foldl (λ v sl, cb sl v) v (zip_with (descriptor first) pre names)).
Proof.
  induction pre as [|m pre IH]; intros w v names w1; simpl.
  - intros [= <- <-]. reflexivity.
  - destruct (GetModuleFileNameExW w (_handle p) m (MAX_PATH * sizeof_WCHAR))
      as [nameStr w0].
    destruct (List.length nameStr =? 0)%nat; simpl; [discriminate|].
    destruct (fits_nameStr nameStr); simpl; [|discriminate].
    destruct (module_names pre w0 p) as [[names0 w2]|] eqn:E; [|discriminate].
    intros [= <- <-]. simpl. apply IH. exact E.
Qed.

Lemma visited_as_zip first ms :
  ∀ names, List.length names = List.length ms →
  Forall2 (visited_as first) ms (zip_with (descriptor first) ms names).
Proof.
  induction ms as [|m ms IH]; intros [|n names]; simpl; try discriminate.
  - constructor.
  - intros [= Hl]. constructor; [apply visited_as_descriptor|now apply IH].
Qed.

(** X13.  The file-name queries of the modules [pre] give names that fit
    the buffer, and the query of the module [m] listed after them fails.
    Then the enumeration stops at [m] and returns the translated error,
    and the visitor has run, in order, on the descriptors of the modules
    of [pre], one each, and on no other. *)
Theorem enumerateSharedLibraries_failed_name {V : Type} (cb : SharedLibraryInfo → V → V)
    w p v pre m post w0 names w1 w2 :
  query_modules w p = inr (pre ++ m :: post, w0) →
  module_names pre w0 p = Some (names, w1) →
  GetModuleFileNameExW w1 (_handle p) m (MAX_PATH * sizeof_WCHAR) = ([], w2) →
  enumerateSharedLibraries cb w p v
  = Some (TranslateError w2,
          foldl (λ v sl, cb sl v) v
            (zip_with (descriptor (hd NULL (pre ++ m :: post))) pre names),
          w2)
  ∧ List.length (zip_with (descriptor (hd NULL (pre ++ m :: post))) pre names)
    = List.length pre
  ∧ Forall2 (visited_as (hd NULL (pre ++ m :: post))) pre
      (zip_with (descriptor (hd NULL (pre ++ m :: post))) pre names).
Proof.
  intros Hq Hpre Hname.
  pose proof (module_names_length _ _ _ _ _ Hpre) as Hlen.
  split; [|split].
  - unfold enumerateSharedLibraries. rewrite Hq.
    rewrite (visit_modules_named cb _ p pre (m :: post) _ _ _ _ Hpre).
    cbn [visit_modules]. rewrite Hname. reflexivity.
  - rewrite length_zip_with. lia.
  - now apply visited_as_zip.
Qed.

Lemma drop_repeat {A : Type} (x : A) : ∀ k n,
  drop k (repeat x n) = repeat x (n - k).
Proof.
  induction k as [|k IH]; intros n.
  - now rewrite drop_0, Nat.sub_0_r.
  - destruct n as [|n]; [reflexivity|]. simpl. apply IH.
Qed.

Lemma store_modules_repeat stored n :
  store_modules stored (repeat NULL n)
  = take n stored ++ repeat NULL (n - List.length stored).
Proof.
  unfold store_modules. rewrite repeat_length, drop_repeat, take_app.
  f_equal. apply take_ge. now rewrite repeat_length.
Qed.

(** X14.  The vector of modules has the size the first native query
    announced, whatever the second query stores: it holds the handles the
    second query stored, cut to that size, followed by null handles when
    the second query stored fewer.  If either query fails, the visitor
    never runs. *)
Theorem query_modules_vector w p :
  (∀ ms w2,
     query_modules w p = inr (ms, w2) →
     ∃ s1 needed w1 stored needed2,
       EnumProcessModules w (_handle p) 0 = (Some (s1, needed), w1)
       ∧ EnumProcessModules w1 (_handle p)
           (Z.of_nat (Z.to_nat (needed / sizeof_HMODULE)) * sizeof_HMODULE)
         = (Some (stored, needed2), w2)
       ∧ List.length ms = Z.to_nat (needed / sizeof_HMODULE)
       ∧ ms = take (Z.to_nat (needed / sizeof_HMODULE)) stored
              ++ repeat NULL (Z.to_nat (needed / sizeof_HMODULE) - List.length stored))
  ∧ (∀ {V : Type} (cb : SharedLibraryInfo → V → V) v e w2,
     query_modules w p = inl (e, w2) →
     enumerateSharedLibraries cb w p v = Some (e, v, w2) ∧ e = TranslateError w2).
Proof.
  split.
  - intros ms w2. unfold query_modules.
    change (Z.of_nat (List.length (@nil Z)) * sizeof_HMODULE) with 0.
    destruct (EnumProcessModules w (_handle p) 0) as [[[s1 needed]|] w1] eqn:E1;
      [|discriminate].
    unfold resize_modules. rewrite repeat_length.
    destruct (EnumProcessModules w1 _ _) as [[[stored needed2]|] w3] eqn:E2;
      [|discriminate].
    intros [= <- <-]. exists s1, needed, w1, stored, needed2.
    split; [reflexivity|]. split; [exact E2|].
    rewrite store_modules_repeat. split; [|reflexivity].
    rewrite length_app, length_take, repeat_length. lia.
  - intros V cb v e w2 Hq. unfold enumerateSharedLibraries. rewrite Hq.
    split; [reflexivity|].
    unfold query_modules in Hq.
    change (Z.of_nat (List.length (@nil Z)) * sizeof_HMODULE) with 0 in Hq.
    destruct (EnumProcessModules w (_handle p) 0) as [[[s1 needed]|] w1].
    + destruct (EnumProcessModules w1 _ _) as [[[stored needed2]|] w3]; [discriminate|].
      now injection Hq as <- <-.
    + now injection Hq as <- <-.
Qed.

End MoreModules.

(** ** The path handed to the visitor *)

Lemma ascii_eqb_code c d :
  Ascii.eqb c d = (nat_of_ascii c =? nat_of_ascii d)%nat.
Proof.
  destruct (Ascii.eqb c d) eqn:E.
  - apply Ascii.eqb_eq in E as ->. symmetry. apply Nat.eqb_refl.
  - symmetry. apply Nat.eqb_neq. intros Hn. apply Ascii.eqb_neq in E. apply E.
    rewrite <- (ascii_nat_embedding c), <- (ascii_nat_embedding d). now rewrite Hn.
Qed.

Lemma drop_drive_codes path :
  drop_drive path = if has_drive_prefix path then drop 2 path else path.
Proof.
  unfold drop_drive, has_drive_prefix, is_upper.
  destruct path as [|c0 [|c1 rest]]; try reflexivity.
  rewrite ascii_eqb_code. reflexivity.
Qed.

Lemma slashes_fixed path :
  slashes path = path ↔ ∀ c, c ∈ path → nat_of_ascii c ≠ 92%nat.
Proof.
  unfold slashes. induction path as [|c path IH]; simpl.
  - split; [intros _ c Hc; now apply elem_of_nil in Hc|reflexivity].
  - rewrite ascii_eqb_code. change (nat_of_ascii backslash) with 92%nat.
    destruct (Nat.eqb_spec (nat_of_ascii c) 92) as [He|Hne].
    + split.
      * intros [= Hc _]. rewrite <- Hc in He. discriminate He.
      * intros Hall. exfalso. apply (Hall c); [left|exact He].
    + split.
      * intros [= Hp] d Hd. apply elem_of_cons in Hd as [->|Hd]; [exact Hne|].
        now apply IH.
      * intros Hall. f_equal. apply IH. intros d Hd. apply Hall. now right.
Qed.

(** X15.  The path transformation drops the first two characters when
    the first has a code from 65 to 90, an upper-case letter, and the
    second has code 58, the colon; it drops none otherwise, so a lower-case
    drive letter stays.  Every character that is kept keeps its place: it
    is replaced by the character of code 47, the slash, when its code is
    92, the backslash, and is itself otherwise.  A path comes out unchanged
    exactly when it has neither such a prefix nor a character of code
    92. *)
Theorem unix_path_shape path :
  let kept := if has_drive_prefix path then drop 2 path else path in
  List.length (unix_path path) = List.length kept
  ∧ (∀ i c, kept !! i = Some c →
       unix_path path !! i
       = Some (if (nat_of_ascii c =? 92)%nat then ascii_of_nat 47 else c))
  ∧ (unix_path path = path
     ↔ has_drive_prefix path = false ∧ ∀ c, c ∈ path → nat_of_ascii c ≠ 92%nat).
Proof.
  intros kept. unfold unix_path. rewrite drop_drive_codes. fold kept.
  split; [unfold slashes; apply length_map|]. split.
  - intros i c Hc. unfold slashes. rewrite list_lookup_fmap, Hc. simpl.
    rewrite ascii_eqb_code. reflexivity.
  - subst kept. destruct (has_drive_prefix path) eqn:Hp.
    + split; [|intros [? _]; discriminate].
      intros He. apply (f_equal (@List.length ascii)) in He.
      unfold slashes in He. rewrite length_map, length_drop in He. exfalso.
      unfold has_drive_prefix in Hp. destruct path as [|c0 [|c1 rest]]; try discriminate.
      simpl in He. lia.
    + rewrite slashes_fixed. tauto.
Qed.

(** ** Construction, detach and allocation *)

Section LifecycleProperties.
Context {H : Host} {HX : HostExt}.

Lemma initialize_loop_success rounds fuel : ∀ w p p' w',
  initialize_loop rounds fuel w p = Some (Returned kSuccess p' w') →
  (∃ si, currentThread_stopInfo p' = Some si
     ∧ event si = kEventStop ∧ reason si = kReasonBreakpoint)
  ∧ ∃ wr pr p2 w2,
      ProcessBase_resume wr pr = (kSuccess, p2, w2)
      ∧ wait fuel w2 p2 = Returned kSuccess p' w'.
Proof.
  induction rounds as [|rounds IH]; intros w p p' w'; [discriminate|].
  cbn [initialize_loop].
  destruct (ProcessBase_resume w p) as [[e p1] w1] eqn:Hr.
  destruct e; try discriminate.
  destruct (wait fuel w1 p1) as [e2 p2 w2| | |] eqn:Hw; try discriminate.
  destruct e2; try discriminate.
  destruct (currentThread_stopInfo p2) as [si|] eqn:Hsi; [|discriminate].
  destruct (not_at_breakpoint si) eqn:Hb.
  - apply IH.
  - intros [= <- <-]. split.
    + exists si. split; [exact Hsi|]. unfold not_at_breakpoint in Hb.
      destruct (event si), (reason si); simpl in Hb; try discriminate. auto.
    + eauto 10.
Qed.

(** X16.  When [initialize] returns Success, the current thread of the
    process is registered and its last stop is a Stop with reason
    Breakpoint; and the state returned is the one left by a [wait] that
    followed a successful [resume()]: the stop harvested by the first
    [wait] of [initialize] never ends it. *)
Theorem initialize_success rounds fuel w p pid flags p' w' :
  initialize rounds fuel w p pid flags = Some (Returned kSuccess p' w') →
  (∃ si, currentThread_stopInfo p' = Some si
     ∧ event si = kEventStop ∧ reason si = kReasonBreakpoint)
  ∧ ∃ wr pr p2 w2,
      ProcessBase_resume wr pr = (kSuccess, p2, w2)
      ∧ wait fuel w2 p2 = Returned kSuccess p' w'.
Proof.
  unfold initialize.
  destruct (wait fuel w p) as [e1 p1 w1| | |]; try discriminate.
  destruct e1; try discriminate.
  destruct (ProcessBase_initialize w1 p1 pid flags) as [[e2 p2] w2].
  destruct e2; try discriminate.
  apply initialize_loop_success.
Qed.

Lemma launch_launched rounds fuel w pid flags p' w' :
  launch rounds fuel w pid flags = Launched p' w' →
  ∃ si, currentThread_stopInfo p' = Some si
    ∧ event si = kEventStop ∧ reason si = kReasonBreakpoint.
Proof.
  unfold launch, initialize.
  destruct (wait fuel w Process_ctor) as [e1 p1 w1| | |]; try discriminate.
  destruct e1; try discriminate.
  destruct (ProcessBase_initialize w1 p1 pid flags) as [[e2 p2] w2].
  destruct e2; try discriminate.
  destruct (initialize_loop rounds fuel w2 p2) as [[e p3 w3| | |]|] eqn:Hl;
    try discriminate.
  destruct e; try discriminate. intros [= <- <-].
  now apply initialize_loop_success in Hl as [Hbp _].
Qed.

(** X17.  [Attach] refuses a pid that is zero or negative without any
    native call.  When it hands out a process, the pid was positive, the
    native attach succeeded, and the process is stopped at a breakpoint:
    its current thread is registered with a Stop whose reason is
    Breakpoint. *)
Theorem Attach_result rounds fuel w pid :
  (pid ≤ 0 → Attach rounds fuel w pid = NotLaunched w)
  ∧ (∀ p' w', Attach rounds fuel w pid = Launched p' w' →
       0 < pid
       ∧ (DebugActiveProcess w pid).1 = true
       ∧ ∃ si, currentThread_stopInfo p' = Some si
           ∧ event si = kEventStop ∧ reason si = kReasonBreakpoint).
Proof.
  unfold Attach. split.
  - intros Hle. apply Z.leb_le in Hle. now rewrite Hle.
  - intros p' w'. destruct (Z.leb_spec pid 0) as [|Hpos]; [discriminate|].
    destruct (DebugActiveProcess w pid) as [[] w1]; simpl; [|discriminate].
    intros Hl. apply launch_launched in Hl. auto.
Qed.

(** X18.  [Create] hands out a process only when the spawner ran
    successfully, and the process is then stopped at a breakpoint; when the
    spawner fails nothing is constructed. *)
Theorem Create_result rounds fuel w spawner :
  (∀ p' w' spawner', Create rounds fuel w spawner = (Launched p' w', spawner') →
     (ProcessSpawner_run w spawner).1.1 = kSuccess
     ∧ spawner' = (ProcessSpawner_run w spawner).1.2
     ∧ ∃ si, currentThread_stopInfo p' = Some si
         ∧ event si = kEventStop ∧ reason si = kReasonBreakpoint)
  ∧ ((ProcessSpawner_run w spawner).1.1 ≠ kSuccess →
     Create rounds fuel w spawner
     = (NotLaunched (ProcessSpawner_run w spawner).2, (ProcessSpawner_run w spawner).1.2)).
Proof.
  unfold Create. destruct (ProcessSpawner_run w spawner) as [[e s1] w1]; simpl. split.
  - intros p' w' s'. destruct e; try discriminate.
    intros [= Hl <-]. apply launch_launched in Hl. auto.
  - intros He. destruct e; congruence.
Qed.

Lemma not_attached_mask_bits i :
  0 ≤ i →
  Z.testbit not_attached_mask i = (i <? 32) && negb (Z.testbit kFlagAttachedProcess i).
Proof.
  intros Hi. unfold not_attached_mask.
  rewrite Z.testbit_mod_pow2 by lia. now rewrite Z.lnot_spec by lia.
Qed.

(** X19.  [detach] prepares the process and stops the native debugging.
    If that fails it returns the translated error: the inherited cleanup
    does not run and the flags stay.  If it succeeds the cleanup runs and
    the attached flag is cleared: no bit of [kFlagAttachedProcess] is left
    in the flags, every other bit below 32 is as the cleanup left it, and
    the flags fit in 32 bits. *)
Theorem detach_result w p p1 w1 result w2 :
  ProcessBase_prepareForDetach w p = (p1, w1) →
  DebugActiveProcessStop w1 (_pid p1) = (result, w2) →
  (result = false → detach w p = (TranslateError w2, p1, w2))
  ∧ (result = true →
     ∀ p2 w3, ProcessBase_cleanup w2 p1 = (p2, w3) →
     ∃ p', detach w p = (kSuccess, p', w3)
       ∧ p' = set_flags (_flags p') p2
       ∧ Z.land (_flags p') kFlagAttachedProcess = 0
       ∧ (∀ i, 0 ≤ i →
            Z.testbit (_flags p') i
            = Z.testbit (_flags p2) i && (i <? 32)
              && negb (Z.testbit kFlagAttachedProcess i))
       ∧ 0 ≤ _flags p' < 2 ^ 32).
Proof.
  intros Hp Hs. unfold detach. rewrite Hp, Hs. split.
  - intros ->. reflexivity.
  - intros -> p2 w3 Hc. rewrite Hc. simpl.
    assert (Hbits : ∀ i, 0 ≤ i →
              Z.testbit (Z.land (_flags p2) not_attached_mask) i
              = Z.testbit (_flags p2) i && (i <? 32)
                && negb (Z.testbit kFlagAttachedProcess i)).
    { intros i Hi. rewrite Z.land_spec, not_attached_mask_bits by lia.
      now rewrite andb_assoc. }
    eexists. split; [reflexivity|]. simpl.
    split; [reflexivity|]. split; [|split; [exact Hbits|]].
    + apply Z.bits_inj'. intros i Hi.
      rewrite Z.land_spec, Hbits, Z.bits_0 by lia.
      destruct (Z.testbit kFlagAttachedProcess i);
        rewrite ?andb_false_r; reflexivity.
    + assert (Hm : 0 ≤ not_attached_mask < 2 ^ 32)
        by (unfold not_attached_mask; apply Z.mod_pos_bound; lia).
      assert (Hn : 0 ≤ Z.land (_flags p2) not_attached_mask)
        by (apply Z.land_nonneg; lia).
      split; [exact Hn|].
      assert (He : Z.land (_flags p2) not_attached_mask
                   = Z.land (_flags p2) not_attached_mask mod 2 ^ 32).
      { apply Z.bits_inj'. intros i Hi.
        rewrite Z.testbit_mod_pow2 by lia.
        destruct (Z.ltb_spec i 32) as [|Hge]; [reflexivity|].
        rewrite Hbits by lia. destruct (Z.ltb_spec i 32); [lia|].
        now rewrite andb_false_r. }
      rewrite He. apply Z.mod_pos_bound. lia.
Qed.

(** X20.  The page protection [allocateMemory] asks for.  The page is
    executable exactly when the Execute flag is set and writable exactly
    when the Write flag is set; a writable page is always readable too,
    whether or not Read was asked for; without the Write flag the page is
    readable exactly when the Read flag is set; and with none of the three
    flags the page is no-access. *)
Theorem allocProtection_flags protection :
  let X := Z.land protection kProtectionExecute ≠ 0 in
  let W := Z.land protection kProtectionWrite ≠ 0 in
  let R := Z.land protection kProtectionRead ≠ 0 in
  let prot := allocProtection protection in
  (prot = PAGE_EXECUTE ∨ prot = PAGE_EXECUTE_READ ∨ prot = PAGE_EXECUTE_READWRITE ↔ X)
  ∧ (prot = PAGE_READWRITE ∨ prot = PAGE_EXECUTE_READWRITE ↔ W)
  ∧ (prot = PAGE_READONLY ∨ prot = PAGE_EXECUTE_READ ↔ R ∧ ¬ W)
  ∧ (prot = PAGE_NOACCESS ↔ ¬ X ∧ ¬ W ∧ ¬ R)
  ∧ (prot = PAGE_EXECUTE ↔ X ∧ ¬ W ∧ ¬ R).
Proof.
  unfold allocProtection.
  destruct (Z.eqb_spec (Z.land protection kProtectionExecute) 0) as [Hx|Hx];
    destruct (Z.eqb_spec (Z.land protection kProtectionWrite) 0) as [Hw|Hw];
    destruct (Z.eqb_spec (Z.land protection kProtectionRead) 0) as [Hr|Hr];
    cbn [negb]; cbv zeta;
    unfold PAGE_NOACCESS, PAGE_READONLY, PAGE_READWRITE, PAGE_EXECUTE,
      PAGE_EXECUTE_READ, PAGE_EXECUTE_READWRITE;
    repeat split; intros; try tauto; try lia;
    repeat match goal with
           | Hd : _ ∨ _ |- _ => destruct Hd
           | Hc : _ ∧ _ |- _ => destruct Hc
           end; try lia; try tauto; auto.
Qed.

(** X21.  [allocateMemory] asks the host to choose the base of a
    committed and reserved region; a null result is the translated error
    and leaves the cell behind [address] as it was, any other result is
    stored there with Success.  The flags matter through the Read, Write
    and Execute tests only: two flag words that agree on them allocate
    alike. *)
Theorem allocateMemory_result w p size protection address result w1 :
  VirtualAllocEx w (_handle p) NULL size (Z.lor MEM_COMMIT MEM_RESERVE)
    (allocProtection protection) = (result, w1) →
  (result = NULL → allocateMemory w p size protection address = (TranslateError w1, address, w1))
  ∧ (result ≠ NULL → allocateMemory w p size protection address = (kSuccess, result, w1))
  ∧ (∀ protection',
       (Z.land protection' kProtectionExecute =? 0)
       = (Z.land protection kProtectionExecute =? 0) →
       (Z.land protection' kProtectionWrite =? 0)
       = (Z.land protection kProtectionWrite =? 0) →
       (Z.land protection' kProtectionRead =? 0)
       = (Z.land protection kProtectionRead =? 0) →
       allocateMemory w p size protection' address
       = allocateMemory w p size protection address).
Proof.
  intros Hv. unfold allocateMemory. rewrite Hv.
  split; [|split].
  - intros ->. reflexivity.
  - intros Hne. apply Z.eqb_neq in Hne. now rewrite Hne.
  - intros protection' Hx Hw Hr.
    assert (Ha : allocProtection protection' = allocProtection protection)
      by (unfold allocProtection; now rewrite Hx, Hw, Hr).
    now rewrite Ha, Hv.
Qed.

End LifecycleProperties.

(** ** The further properties at work on the scripted hosts *)

Lemma wait_keeps_identity_witness :
  ∃ e p' w',
    wait (H := script_host) 5 (script_new_thread kSuccess) process0
    = Returned (H := script_host) e p' w'
    ∧ same_identity process0 p'.
Proof.
  eexists _, _, _. split; [reflexivity|].
  exact (proj1 (@wait_keeps_identity script_host 5 (script_new_thread kSuccess)
                  process0 _ _ _ eq_refl)).
Defined.

Lemma wait_success_marks_pending_witness :
  ∃ p' w',
    wait (H := script_host) 5 (script_new_thread kSuccess) process0
    = Returned (H := script_host) kSuccess p' w'
    ∧ _valid (_pendingEvent process0) = false
    ∧ _valid (_pendingEvent p') = true.
Proof.
  eexists _, _. split; [reflexivity|].
  apply (@wait_success_marks_pending script_host 5 (script_new_thread kSuccess)
           process0 _ _ eq_refl eq_refl).
  discriminate.
Defined.

Lemma wait_null_current_thread_witness :
  wait (H := script_host) 1 script_wait_fails process0
  = Returned (H := script_host) kErrorUnknown
      process_after_failed_wait script_after_failed_wait
  ∧ kErrorUnknown = TranslateError (H := script_host) script_after_failed_wait
  ∧ _pendingEvent process_after_failed_wait = _pendingEvent process0.
Proof.
  split; [reflexivity|].
  destruct (@wait_null_current_thread script_host 1 script_wait_fails process0
              kErrorUnknown process_after_failed_wait script_after_failed_wait
              eq_refl eq_refl eq_refl) as (_ & He & Hp & _).
  split; [exact He | exact Hp].
Defined.

Lemma wait_thread_exited_witness :
  ∃ p',
    wait (H := script_host) 5 script_thread_exit process_two_threads
    = wait (H := script_host) 4 script_thread_exit_next p'
    ∧ _threads p' = delete 12 (_threads process_two_threads)
    ∧ S (size (_threads p')) = size (_threads process_two_threads).
Proof.
  destruct (proj2 (@wait_thread_exited script_host 4 script_thread_exit process_two_threads
                     (debug_event EXIT_THREAD_DEBUG_EVENT 12) script_thread_exit_next
                     eq_refl eq_refl eq_refl)
              (thread0 12) _ _ kSuccess _ script_thread_exit_next
              eq_refl eq_refl eq_refl) as [Hok _].
  destruct (Hok eq_refl) as (p' & Hw & _ & _ & Hdel).
  exists p'. split; [exact Hw|]. exact (Hdel eq_refl).
Defined.

Lemma wait_stop_event_witness :
  ∃ p',
    wait (H := script_host) 3 script_exception process0
    = Returned (H := script_host) kSuccess p' script0
    ∧ _currentThread p' = Some 11
    ∧ _pendingEvent p' = {| _valid := true; pe_tid := 11 |}.
Proof.
  destruct (proj2 (proj2 (@wait_stop_event script_host 2 script_exception process0
                     (debug_event EXCEPTION_DEBUG_EVENT 11) script0
                     eq_refl eq_refl eq_refl))
              (thread0 11) _ _ _ _ _ kSuccess _ script0
              eq_refl eq_refl eq_refl eq_refl eq_refl)
    as (p' & Hw & _ & Hc & Hp & _).
  exists p'. split; [exact Hw|]. split; [exact Hc | exact Hp].
Defined.

Lemma wait_process_created_witness :
  ∃ p' w',
    wait (H := script_host) 1 script_launch script_base_process
    = Returned (H := script_host) kSuccess p' w'
    ∧ _handle p' = 77
    ∧ wait (H := script_host) 1
        (sc_with_events [Some (debug_event CREATE_PROCESS_DEBUG_EVENT 1)] 0 w') p'
      = AssertionFailure.
Proof.
  destruct (proj2 (@wait_process_created script_host 0 script_launch script_base_process
                     _ _ eq_refl eq_refl eq_refl)
              eq_refl ltac:(discriminate) ltac:(discriminate) eq_refl)
    as (p' & w' & k & t & Hw & Hh & _ & _ & _ & Ht & _).
  exists p', w'. split; [exact Hw|]. split; [exact Hh|].
  destruct (proj1 (@wait_process_created script_host 0
                     (sc_with_events [Some (debug_event CREATE_PROCESS_DEBUG_EVENT 1)] 0 w')
                     p' (debug_event CREATE_PROCESS_DEBUG_EVENT 1) _ Ht eq_refl eq_refl)).
  - left. rewrite Hh. discriminate.
  - reflexivity.
Defined.

Lemma wait_unknown_event_code_witness :
  ∃ n, ∀ fuel, (n < fuel)%nat →
    wait (H := script_host) fuel script_rip process0 = AssertionFailure.
Proof.
  exact (@wait_unknown_event_code script_host script_rip process0
           (debug_event RIP_EVENT 11) script_rip process0 eq_refl
           (harvests_now (H := script_host) script_rip process0
              (debug_event RIP_EVENT 11) _ eq_refl)
           eq_refl).
Defined.

Lemma wait_after_process_exit_witness :
  ∃ p' w' t' p'',
    wait (H := script_host) 3 script_exit process0
    = Returned (H := script_host) kSuccess p' w'
    ∧ isAlive p' = false
    ∧ _threads p' = {[ 11 := t' ]}
    ∧ event (_stopInfo t') = kEventExit
    ∧ wait (H := script_host) 0 w' p' = Returned (H := script_host) kSuccess p'' w'
    ∧ _threads p'' = {[ 11 := Thread_set_event kEventKill t' ]}.
Proof.
  eexists _, _.
  destruct (@wait_after_process_exit script_host 2 0 script_exit process0
              (debug_event EXIT_PROCESS_DEBUG_EVENT 11) _ _ _ _
              eq_refl eq_refl eq_refl eq_refl)
    as (Halive & t' & p'' & Hts & Hw & Hts' & _).
  exists t', p''. split; [reflexivity|]. split; [exact Halive|].
  split; [exact Hts|]. split; [|split; [exact Hw | exact Hts']].
  apply (f_equal (λ m, m !! 11)) in Hts. rewrite lookup_singleton_eq in Hts.
  injection Hts as <-. reflexivity.
Defined.

Lemma script_host_keeps_tid : keeps_tid (H := script_host).
Proof.
  repeat split; try reflexivity.
  - intros w t. simpl. destruct (sc_resume w); reflexivity.
  - intros w ts Hk k t. simpl. rewrite lookup_fmap.
    destruct (ts !! k) as [t0|] eqn:E; simpl; [|discriminate].
    intros [= <-]. simpl. now apply Hk.
Qed.

Lemma process0_threads_keyed : threads_keyed (_threads process0).
Proof.
  intros k t. unfold process0; simpl. rewrite lookup_singleton.
  case_decide; [|discriminate]. intros [= <-]. now subst.
Qed.

Lemma wait_keeps_threads_keyed_witness :
  ∃ p' w',
    wait (H := script_host) 5 (script_new_thread kSuccess) process0
    = Returned (H := script_host) kSuccess p' w'
    ∧ threads_keyed (_threads p')
    ∧ pe_tid (_pendingEvent p') = 11.
Proof.
  eexists _, _. split; [reflexivity|].
  destruct (@wait_keeps_threads_keyed script_host 5 (script_new_thread kSuccess)
              process0 _ _ _ script_host_keeps_tid process0_threads_keyed eq_refl)
    as [Hk Hpe].
  split; [exact Hk|]. exact (Hpe eq_refl eq_refl 11 eq_refl).
Defined.

Lemma readString_failed_read_witness :
  readString (H := script_host) script_ab_only process0 0 [] 5 None
  = (kErrorUnknown, list_ascii_of_string "ab", None,
     sc_with_error ERROR_NOACCESS script_ab_only).
Proof.
  refine (@readString_failed_read script_host script_ab_only process0 0 [] 5 None
            (list_ascii_of_string "ab") script_ab_only kErrorUnknown "?"%char
            (sc_with_error ERROR_NOACCESS script_ab_only)
            eq_refl _ _ eq_refl _).
  - apply (bool_decide_unpack _). exact I.
  - simpl. lia.
  - discriminate.
Defined.

Lemma pendingEvent_run_final_witness :
  ∃ pe w',
    PendingEvent_run (H := script_host) script0 PendingEvent_init
      [OpSet (thread0 11); OpReset; OpSet (thread0 12)] = Some (pe, w')
    ∧ pe = {| _valid := true; pe_tid := 12 |}.
Proof.
  eexists _, _. split; [reflexivity|].
  exact (proj1 (@pendingEvent_run_final script_host script0
                  [OpSet (thread0 11); OpReset; OpSet (thread0 12)] _ _ eq_refl)).
Defined.

Lemma enumerateSharedLibraries_failed_name_witness :
  ∃ seen w',
    enumerateSharedLibraries (H := script_host) record_visit script_three_modules
      process0 [] = Some (kErrorUnknown, seen, w')
    ∧ map sections seen = [[10]; [20]].
Proof.
  eexists _, _.
  destruct (@enumerateSharedLibraries_failed_name script_host _ record_visit
              script_three_modules process0 [] [10; 20] 30 []
              _ _ _ _ eq_refl eq_refl eq_refl)
    as [He _].
  split; [exact He|]. reflexivity.
Defined.

(** The drive of the first path is dropped and its backslashes are
    slashes; the lower-case drive of the second stays. *)
Lemma unix_path_shape_witness :
  unix_path (list_ascii_of_string "C:\Windows\k.dll") !! 0%nat = Some "/"%char
  ∧ unix_path (list_ascii_of_string "C:\Windows\k.dll") !! 1%nat = Some "W"%char
  ∧ unix_path (list_ascii_of_string "c:\k.dll") !! 0%nat = Some "c"%char
  ∧ unix_path (list_ascii_of_string "c:\k.dll") !! 2%nat = Some "/"%char
  ∧ unix_path (list_ascii_of_string "/app/a.exe") = list_ascii_of_string "/app/a.exe".
Proof.
  split; [|split; [|split; [|split]]].
  - exact (proj1 (proj2 (unix_path_shape (list_ascii_of_string "C:\Windows\k.dll")))
             0%nat _ eq_refl).
  - exact (proj1 (proj2 (unix_path_shape (list_ascii_of_string "C:\Windows\k.dll")))
             1%nat _ eq_refl).
  - exact (proj1 (proj2 (unix_path_shape (list_ascii_of_string "c:\k.dll")))
             0%nat _ eq_refl).
  - exact (proj1 (proj2 (unix_path_shape (list_ascii_of_string "c:\k.dll")))
             2%nat _ eq_refl).
  - apply (proj2 (proj2 (unix_path_shape (list_ascii_of_string "/app/a.exe")))).
    split; [reflexivity|]. apply Forall_forall. apply (bool_decide_unpack _). exact I.
Defined.

Lemma query_modules_vector_witness :
  ∃ ms w2,
    query_modules (H := script_host) script_fewer_modules process0 = inr (ms, w2)
    ∧ List.length ms = 3%nat
    ∧ ms = [10; NULL; NULL].
Proof.
  eexists _, _. split; [reflexivity|].
  destruct (proj1 (@query_modules_vector script_host script_fewer_modules process0)
              _ _ eq_refl)
    as (s1 & needed & w1 & stored & needed2 & H1 & H2 & Hlen & Hms).
  vm_compute in H1. inversion H1; subst.
  vm_compute in H2. inversion H2; subst.
  split; [exact Hlen | exact Hms].
Defined.

Lemma initialize_success_witness :
  ∃ p' w' si,
    initialize (H := script_host_bp) (HX := script_ext) 3 3 script_launch
      (Process_ctor (H := script_host_bp) (HX := script_ext)) 4242 1
    = Some (Returned (H := script_host_bp) kSuccess p' w')
    ∧ currentThread_stopInfo p' = Some si
    ∧ event si = kEventStop ∧ reason si = kReasonBreakpoint.
Proof.
  assert (Hi : ∃ p' w',
    initialize (H := script_host_bp) (HX := script_ext) 3 3 script_launch
      (Process_ctor (H := script_host_bp) (HX := script_ext)) 4242 1
    = Some (Returned (H := script_host_bp) kSuccess p' w'))
    by (eexists _, _; vm_compute; reflexivity).
  destruct Hi as (p' & w' & Hi). exists p', w'.
  destruct (proj1 (@initialize_success script_host_bp script_ext 3 3 script_launch
                     (Process_ctor (H := script_host_bp) (HX := script_ext)) 4242 1
                     p' w' Hi)) as (si & Hsi & He & Hr).
  exists si. split; [exact Hi|]. auto.
Defined.

Lemma Attach_result_witness :
  Attach (H := script_host_bp) (HX := script_ext) 3 3 script_launch 0
  = NotLaunched (H := script_host_bp) script_launch
  ∧ ∃ p' w' si,
      Attach (H := script_host_bp) (HX := script_ext) 3 3 script_launch 4242
      = Launched (H := script_host_bp) p' w'
      ∧ currentThread_stopInfo p' = Some si
      ∧ event si = kEventStop ∧ reason si = kReasonBreakpoint.
Proof.
  split.
  - apply (proj1 (@Attach_result script_host_bp script_ext 3 3 script_launch 0)). lia.
  - assert (Ha : ∃ p' w',
      Attach (H := script_host_bp) (HX := script_ext) 3 3 script_launch 4242
      = Launched (H := script_host_bp) p' w')
      by (eexists _, _; vm_compute; reflexivity).
    destruct Ha as (p' & w' & Ha). exists p', w'.
    destruct (proj2 (@Attach_result script_host_bp script_ext 3 3 script_launch 4242)
                p' w' Ha) as (_ & _ & si & Hsi & He & Hr).
    exists si. split; [exact Ha|]. auto.
Defined.

Lemma Create_result_witness :
  ∃ p' w' si,
    Create (H := script_host_bp) (HX := script_ext) 3 3 script_launch 4242
    = (Launched (H := script_host_bp) p' w', 4242)
    ∧ currentThread_stopInfo p' = Some si
    ∧ event si = kEventStop ∧ reason si = kReasonBreakpoint.
Proof.
  assert (Hc : ∃ p' w',
    Create (H := script_host_bp) (HX := script_ext) 3 3 script_launch 4242
    = (Launched (H := script_host_bp) p' w', 4242))
    by (eexists _, _; vm_compute; reflexivity).
  destruct Hc as (p' & w' & Hc). exists p', w'.
  destruct (proj1 (@Create_result script_host_bp script_ext 3 3 script_launch 4242)
              p' w' 4242 Hc) as (_ & _ & si & Hsi & He & Hr).
  exists si. split; [exact Hc|]. auto.
Defined.

Lemma detach_result_witness :
  ∃ p',
    detach (H := script_host_bp) (HX := script_ext) script0 (set_flags 7 process0)
    = (kSuccess, p', script0)
    ∧ _flags p' = 6
    ∧ Z.land (_flags p') 1 = 0.
Proof.
  destruct (proj2 (@detach_result script_host_bp script_ext script0 (set_flags 7 process0)
                     _ _ true _ eq_refl eq_refl) eq_refl _ _ eq_refl)
    as (p' & Hd & Hp & Hland & _).
  exists p'. split; [exact Hd|]. split; [|exact Hland].
  injection Hd as <-. reflexivity.
Defined.

Lemma allocateMemory_result_witness :
  allocateMemory (H := script_host_bp) (HX := script_ext) script0 process0 4096 3 0
  = (kSuccess, 65536, script0)
  ∧ allocateMemory (H := script_host_bp) (HX := script_ext) script0 process0 4096 11 0
  = allocateMemory (H := script_host_bp) (HX := script_ext) script0 process0 4096 3 0.
Proof.
  destruct (@allocateMemory_result script_host_bp script_ext script0 process0 4096 3 0
              65536 script0 eq_refl) as (_ & Hok & Hsame).
  split; [apply Hok; discriminate|].
  apply Hsame; reflexivity.
Defined.
